(** * SPOCK simulation set-up ([spock/simsetup.py]): a shallow embedding

    The module prepares REBOUND simulations for short integrations: it
    validates them, picks integrator and timestep, rotates the frame onto the
    angular-momentum axis, extracts planet trios, merges colliding planets and
    splices the outcome back into the full system.

    Python floats are idealised as real numbers: every arithmetic operation is
    the exact one of [R].  The only non-number the module itself writes,
    [np.nan] for the timestep, is kept as a value of its own ([pyfloat]).
    Python exceptions are values of [pyerr] carried by [result]; a function
    that writes to a simulation it was handed runs in [M], with that
    simulation as the state.

    REBOUND itself is not part of the module.  Its simulations are seen
    through two views, one per family of functions: state vectors
    ([Cartesian], for the frame rotation and for mergers) and orbital elements
    (for validation, timestep, extraction and reinsertion). *)

From Stdlib Require Import Reals Lra Lia List Arith Bool Sorting.Sorted Sorting.Permutation.
From Stdlib Require Import RNsatz.
Import ListNotations.
Open Scope R_scope.

(** ** Exceptions and fallible results *)

Inductive pyerr : Type :=
| IndexError          (* subscript out of range *)
| ValueError          (* numpy reduction of an empty array, orbit of particle 0 *)
| UnboundLocalError   (* a local variable read before any assignment *)
| ZeroDivisionError   (* float division by zero *)
| RuntimeError        (* REBOUND refuses to remove a particle *)
| NegativeMassError   (* AttributeError: particles had negative masses *)
| NonDominantPrimaryError. (* AttributeError: particle 0 must be the primary *)

Inductive result (A : Type) : Type :=
| Ok (a : A)
| Err (e : pyerr).
Arguments Ok {A} a.
Arguments Err {A} e.

Definition bind {A B : Type} (c : result A) (k : A -> result B) : result B :=
  match c with
  | Ok a => k a
  | Err e => Err e
  end.

Notation "x <- c ;; k" := (bind c (fun x => k))
  (at level 61, c at next level, right associativity).

(** Code that mutates an object of type [S] it was handed: the object is the
    state, and it keeps what was written to it when an exception is raised. *)
Definition M (S A : Type) : Type := S -> result A * S.

Definition ret {S A : Type} (a : A) : M S A := fun s => (Ok a, s).
Definition raise {S A : Type} (e : pyerr) : M S A := fun s => (Err e, s).
Definition lift {S A : Type} (c : result A) : M S A := fun s => (c, s).
Definition get {S : Type} : M S S := fun s => (Ok s, s).
Definition put {S : Type} (s' : S) : M S unit := fun _ => (Ok tt, s').

Definition mbind {S A B : Type} (c : M S A) (k : A -> M S B) : M S B :=
  fun s =>
    match c s with
    | (Ok a, s') => k a s'
    | (Err e, s') => (Err e, s')
    end.

Notation "x <~ c ;; k" := (mbind c (fun x => k))
  (at level 61, c at next level, right associativity).

(** [for i in range(start, start + count): body(i)] *)
Fixpoint for_range {S : Type} (body : nat -> M S unit) (start count : nat) : M S unit :=
  match count with
  | O => ret tt
  | Datatypes.S c => _ <~ body start ;; for_range body (Datatypes.S start) c
  end.

(** A float as the module can produce it: a number, or [np.nan]. *)
Inductive pyfloat : Type :=
| Num (x : R)
| NaN.

(** ** Lists as Python sequences *)

(** [xs[k]], raising [IndexError] out of range. *)
Definition getitem {A : Type} (xs : list A) (k : nat) : result A :=
  match nth_error xs k with
  | Some a => Ok a
  | None => Err IndexError
  end.

(** [xs[k] = v], raising [IndexError] out of range. *)
Fixpoint setitem {A : Type} (xs : list A) (k : nat) (v : A) : result (list A) :=
  match xs, k with
  | [], _ => Err IndexError
  | _ :: tl, O => Ok (v :: tl)
  | hd :: tl, S k' => tl' <- setitem tl k' v ;; Ok (hd :: tl')
  end.

(** [x ** y] for a base that is not negative: [0.0 ** y] is [0.0] for a
    positive exponent, which [Rpower] alone would not give. *)
Definition py_pow (x y : R) : R :=
  if Req_dec_T x 0 then 0 else Rpower x y.

(** ** The Cartesian view: state vectors *)

Module Cartesian.

Definition vec3 : Type := (R * R * R)%type.

(** [npEulerAnglesTransform(xyz, Omega, I, omega)]: rotate about z by [omega],
    about x by [I], about z by [Omega]. *)
Definition npEulerAnglesTransform (xyz : vec3) (Omega I omega : R) : vec3 :=
  let '(x, y, z) := xyz in
  let s1 := sin omega in
  let c1 := cos omega in
  let x1 := c1 * x - s1 * y in
  let y1 := s1 * x + c1 * y in
  let z1 := z in
  let s2 := sin I in
  let c2 := cos I in
  let x2 := x1 in
  let y2 := c2 * y1 - s2 * z1 in
  let z2 := s2 * y1 + c2 * z1 in
  let s3 := sin Omega in
  let c3 := cos Omega in
  let x3 := c3 * x2 - s3 * y2 in
  let y3 := s3 * x2 + c3 * y2 in
  let z3 := z2 in
  (x3, y3, z3).

(** A [rebound.Particle] as the C structure stores it. *)
Record Particle : Type := mkParticle {
  m : R;
  xyz : vec3;
  vxyz : vec3;
  r : R
}.

(** A simulation: its particles, the [N_var] variational ones last, and
    whether [sim.stop()] was called. *)
Record Simulation : Type := mkSimulation {
  particles : list Particle;
  N_var : nat;
  stopped : bool
}.

Definition N_real (sim : Simulation) : nat := (length (particles sim) - N_var sim)%nat.

(** [x'] is [x] to the relative tolerance [tol], and the same in every
    coordinate of two vectors. *)
Definition within (tol x' x : R) : Prop := Rabs (x' - x) <= tol * Rabs x.

Definition close_to (tol : R) (u v : vec3) : Prop :=
  let '(x', y', z') := u in
  let '(x, y, z) := v in
  within tol x' x /\ within tol y' y /\ within tol z' z.

(** The body of the loop of [align_simulation] and of the loop that ends
    [replace_trio]: both vectors of one particle through the transform. *)
Definition transform_particle (Omega I omega : R) (p : Particle) : Particle :=
  mkParticle (m p)
             (npEulerAnglesTransform (xyz p) Omega I omega)
             (npEulerAnglesTransform (vxyz p) Omega I omega)
             (r p).

(** [for p in sim.particles[:sim.N_real]: ...] *)
Definition transform_real (Omega I omega : R) (sim : Simulation) : Simulation :=
  mkSimulation
    (map (transform_particle Omega I omega) (firstn (N_real sim) (particles sim))
       ++ skipn (N_real sim) (particles sim))
    (N_var sim) (stopped sim).

(** [align_simulation] once the two angles are known. *)
Definition align_with (theta1 theta2 : R) (sim : Simulation) : Simulation :=
  transform_real 0 theta2 theta1 sim.

(** The rotation back that [replace_trio] applies. *)
Definition align_back (theta1 theta2 : R) (sim : Simulation) : Simulation :=
  transform_real (- theta1) (- theta2) 0 sim.

(** REBOUND's arithmetic on particles acts on mass, position and velocity of a
    copy of the left operand, whose radius is kept. *)
Definition vscale (c : R) (v : vec3) : vec3 :=
  let '(x, y, z) := v in (x * c, y * c, z * c).

Definition vadd (u v : vec3) : vec3 :=
  let '(x, y, z) := u in let '(x', y', z') := v in (x + x', y + y', z + z').

Definition vdiv (v : vec3) (c : R) : vec3 :=
  let '(x, y, z) := v in (x / c, y / c, z / c).

Definition particle_mul (p : Particle) (c : R) : Particle :=
  mkParticle (m p * c) (vscale c (xyz p)) (vscale c (vxyz p)) (r p).

Definition particle_add (p q : Particle) : Particle :=
  mkParticle (m p + m q) (vadd (xyz p) (xyz q)) (vadd (vxyz p) (vxyz q)) (r p).

Definition particle_div (p : Particle) (c : R) : Particle :=
  mkParticle (m p / c) (vdiv (xyz p) c) (vdiv (vxyz p) c) (r p).

Definition set_m (p : Particle) (v : R) : Particle := mkParticle v (xyz p) (vxyz p) (r p).
Definition set_r (p : Particle) (v : R) : Particle := mkParticle (m p) (xyz p) (vxyz p) v.

(** [ps[k]] and [ps[k] = p], [ps[k].m = v], [ps[k].r = v] on the simulation. *)
Definition particle_at (k : nat) : M Simulation Particle :=
  sim <~ get ;; lift (getitem (particles sim) k).

Definition update_at (k : nat) (f : Particle -> Particle) : M Simulation unit :=
  sim <~ get ;;
  p <~ lift (getitem (particles sim) k) ;;
  ps' <~ lift (setitem (particles sim) k (f p)) ;;
  put (mkSimulation ps' (N_var sim) (stopped sim)).

Definition stop : M Simulation unit :=
  sim <~ get ;; put (mkSimulation (particles sim) (N_var sim) true).

(** [perfect_merge(sim_pointer, collided_particles_index)] with [i = p1] and
    [j = p2]; the returned [2] tells REBOUND to remove particle [j]. *)
Definition perfect_merge (i j : nat) : M Simulation nat :=
  pi <~ particle_at i ;;
  pj <~ particle_at j ;;
  let total_mass := m pi + m pj in
  let merged_planet :=
    particle_div (particle_add (particle_mul pi (m pi)) (particle_mul pj (m pj))) total_mass in
  let merged_radius := py_pow (r pi ^ 3 + r pj ^ 3) (1 / 3) in
  _ <~ update_at i (fun _ => merged_planet) ;;
  _ <~ update_at i (fun p => set_m p total_mass) ;;
  _ <~ update_at i (fun p => set_r p merged_radius) ;;
  _ <~ stop ;;
  ret 2%nat.

(** Linear momentum of a particle. *)
Definition momentum (p : Particle) : vec3 := vscale (m p) (vxyz p).

(** Two colliding bodies of masses 1 and 3 and radii 1 and 2. *)
Definition merge_example : Simulation :=
  mkSimulation
    [ mkParticle 1 (1, 0, 0) (0, 2, 0) 1; mkParticle 3 (5, 0, 0) (0, -2, 4) 2 ] 0 false.

(** [u @ v] on two vectors, and their cross product. *)
Definition dot (u v : vec3) : R :=
  let '(x, y, z) := u in let '(x', y', z') := v in x * x' + y * y' + z * z'.

Definition cross (u v : vec3) : vec3 :=
  let '(x, y, z) := u in
  let '(x', y', z') := v in
  (y * z' - z * y', z * x' - x * z', x * y' - y * x').

(** [np.arctan2(y, x)]: the angle of the point [(x, y)], in [(-pi, pi]], and 0
    at the origin. *)
Definition np_arctan2 (y x : R) : R :=
  if Rlt_dec 0 x then atan (y / x)
  else if Rlt_dec x 0 then
    (if Rle_dec 0 y then atan (y / x) + PI else atan (y / x) - PI)
  else if Rlt_dec 0 y then PI / 2
  else if Rlt_dec y 0 then - (PI / 2)
  else 0.

(** The body of [_compute_transformation_angles], from the vector that
    [sim.angular_momentum()] returned. *)
Definition transformation_angles (Gtot_vec : vec3) : R * R :=
  let Gtot := sqrt (dot Gtot_vec Gtot_vec) in
  let '(Ghat_x, Ghat_y, Ghat_z) := vdiv Gtot_vec Gtot in
  let Ghat_perp := sqrt (1 - Ghat_z ^ 2) in
  let theta1 := PI / 2 - np_arctan2 Ghat_y Ghat_x in
  let theta2 := PI / 2 - np_arctan2 Ghat_z Ghat_perp in
  (theta1, theta2).

Section Alignment.

(** [sim.angular_momentum()] is REBOUND's. *)
Variable angular_momentum : Simulation -> vec3.

(** [_compute_transformation_angles(sim)] *)
Definition _compute_transformation_angles (sim : Simulation) : R * R :=
  transformation_angles (angular_momentum sim).

(** [align_simulation(sim)] *)
Definition align_simulation : M Simulation (R * R) :=
  sim <~ get ;;
  let '(theta1, theta2) := _compute_transformation_angles sim in
  _ <~ put (align_with theta1 theta2 sim) ;;
  ret (theta1, theta2).

End Alignment.

(** The angular momentum as REBOUND documents it: the sum of [m r x v] over
    the real particles. *)
Definition total_angular_momentum (sim : Simulation) : vec3 :=
  fold_right (fun p acc => vadd (vscale (m p) (cross (xyz p) (vxyz p))) acc)
             (0, 0, 0) (firstn (N_real sim) (particles sim)).

(** Kinetic energy of a particle. *)
Definition kinetic_energy (p : Particle) : R := m p * dot (vxyz p) (vxyz p) / 2.

(** What [perfect_merge] leaves in slot [i] for the colliding [pi] and [pj]. *)
Definition merged_body (pi pj : Particle) : Particle :=
  mkParticle (m pi + m pj)
             (vdiv (vadd (vscale (m pi) (xyz pi)) (vscale (m pj) (xyz pj))) (m pi + m pj))
             (vdiv (vadd (vscale (m pi) (vxyz pi)) (vscale (m pj) (vxyz pj))) (m pi + m pj))
             (py_pow (r pi ^ 3 + r pj ^ 3) (1 / 3)).

End Cartesian.

(** ** The orbital-element view

    Extraction, reinsertion, validation and the timestep rule read and write
    particles through their masses and orbital elements.  REBOUND derives the
    elements of particle [k >= 1] from the state vectors on every read,
    rebuilds the state vector on every write, and refuses to give elements for
    particle 0.  In this view a particle is the record of its mass, its
    radius and the elements [sim.add] takes; a read returns what was last
    written, and a write to one attribute of one particle leaves every other
    attribute and every other particle as it was.  What REBOUND computes
    from them is a parameter of the development:
    - the mean longitude [l] from the true longitude [theta] and back;
    - the orbital period [P];
    - the elements of a particle after every state vector went through
      [npEulerAnglesTransform] with given angles. *)

Record Body : Type := mkBody {
  m : R;
  a : R;
  e : R;
  inc : R;
  pomega : R;
  Omega : R;
  theta : R;
  r : R
}.

Inductive Integrator : Type := ias15 | whfast.

Record Sim : Type := mkSim {
  G : R;
  dt : pyfloat;
  integrator : Integrator;
  N_var : nat;
  particles : list Body
}.

Definition N (sim : Sim) : nat := length (particles sim).
Definition N_real (sim : Sim) : nat := (N sim - N_var sim)%nat.

(** [rebound.Simulation()] *)
Definition Simulation : Sim := mkSim 1 (Num (1 / 1000)) ias15 0 [].

Definition set_G (sim : Sim) (v : R) : Sim :=
  mkSim v (dt sim) (integrator sim) (N_var sim) (particles sim).
Definition set_dt (sim : Sim) (v : pyfloat) : Sim :=
  mkSim (G sim) v (integrator sim) (N_var sim) (particles sim).
Definition set_integrator (sim : Sim) (v : Integrator) : Sim :=
  mkSim (G sim) (dt sim) v (N_var sim) (particles sim).
Definition set_particles (sim : Sim) (ps : list Body) : Sim :=
  mkSim (G sim) (dt sim) (integrator sim) (N_var sim) ps.

Definition with_m (v : R) (b : Body) : Body :=
  mkBody v (a b) (e b) (inc b) (pomega b) (Omega b) (theta b) (r b).
Definition with_a (v : R) (b : Body) : Body :=
  mkBody (m b) v (e b) (inc b) (pomega b) (Omega b) (theta b) (r b).
Definition with_e (v : R) (b : Body) : Body :=
  mkBody (m b) (a b) v (inc b) (pomega b) (Omega b) (theta b) (r b).
Definition with_inc (v : R) (b : Body) : Body :=
  mkBody (m b) (a b) (e b) v (pomega b) (Omega b) (theta b) (r b).
Definition with_pomega (v : R) (b : Body) : Body :=
  mkBody (m b) (a b) (e b) (inc b) v (Omega b) (theta b) (r b).
Definition with_Omega (v : R) (b : Body) : Body :=
  mkBody (m b) (a b) (e b) (inc b) (pomega b) v (theta b) (r b).
Definition with_theta (v : R) (b : Body) : Body :=
  mkBody (m b) (a b) (e b) (inc b) (pomega b) (Omega b) v (r b).

(** [sim.add(m=...)]: a particle given by its mass alone. *)
Definition add_m (sim : Sim) (mass : R) : Sim :=
  set_particles sim (particles sim ++ [mkBody mass 0 0 0 0 0 0 0]).

(** [sim.add(m=..., a=..., e=..., inc=..., pomega=..., Omega=..., theta=...)],
    for elements that make an orbit: REBOUND refuses the others (an
    eccentricity above 1 with a positive semi-major axis, a primary without
    mass, ...). *)
Definition add_orbit (sim : Sim) (m_ a_ e_ inc_ pomega_ Omega_ theta_ : R) : Sim :=
  set_particles sim (particles sim ++ [mkBody m_ a_ e_ inc_ pomega_ Omega_ theta_ 0]).

(** [sim.particles[k].m] *)
Definition mass_at (sim : Sim) (k : nat) : result R :=
  b <- getitem (particles sim) k ;; Ok (m b).

(** [sim.particles[k].<element>]: no orbit is defined for particle 0.  A
    [Body] holds the elements as REBOUND reads them; a particle whose orbit it
    cannot read (on top of its primary, or about no mass) is no such body. *)
Definition element_at (f : Body -> R) (sim : Sim) (k : nat) : result R :=
  b <- getitem (particles sim) k ;;
  match k with
  | O => Err ValueError
  | S _ => Ok (f b)
  end.

(** [sim.particles[k].m = v] *)
Definition set_mass_at (sim : Sim) (k : nat) (v : R) : result Sim :=
  b <- getitem (particles sim) k ;;
  ps <- setitem (particles sim) k (with_m v b) ;;
  Ok (set_particles sim ps).

(** [sim.particles[k].<element> = v], the write being [f], on the particle
    alone.  In REBOUND the elements are Jacobi elements, rebuilt from the
    state vectors: after a write the particles before [k] read as before, the
    ones after [k] read what the moved centre of mass gives them until they
    are written themselves, and setting [Omega] keeps the argument of
    pericentre. *)
Definition set_element_at (f : Body -> Body) (sim : Sim) (k : nat) : result Sim :=
  b <- getitem (particles sim) k ;;
  match k with
  | O => Err ValueError
  | S _ => ps <- setitem (particles sim) k (f b) ;; Ok (set_particles sim ps)
  end.

(** [del xs[k]] on a list. *)
Fixpoint delete_nth {A : Type} (k : nat) (xs : list A) : list A :=
  match xs, k with
  | [], _ => []
  | _ :: tl, O => tl
  | hd :: tl, S k' => hd :: delete_nth k' tl
  end.

(** [sim.remove(k)]: the later particles move down by one; REBOUND refuses an
    index that is out of range. *)
Definition remove (sim : Sim) (k : nat) : result Sim :=
  if (k <? N sim)%nat then Ok (set_particles sim (delete_nth k (particles sim)))
  else Err RuntimeError.

(** [x / y] on Python floats. *)
Definition py_div (x y : R) : result R :=
  if Req_dec_T y 0 then Err ZeroDivisionError else Ok (x / y).

(** [np.min] and [np.max] of a list of numbers. *)
Definition np_min (xs : list R) : result R :=
  match xs with
  | [] => Err ValueError
  | x :: tl => Ok (fold_left Rmin tl x)
  end.

Definition np_max (xs : list R) : result R :=
  match xs with
  | [] => Err ValueError
  | x :: tl => Ok (fold_left Rmax tl x)
  end.

(** [min(p_inds)] on a list of indices. *)
Definition min_index (p_inds : list nat) : result nat :=
  match p_inds with
  | [] => Err ValueError
  | k :: tl => Ok (fold_left Nat.min tl k)
  end.

(** [i in p_inds] *)
Definition contains (p_inds : list nat) (i : nat) : bool :=
  existsb (Nat.eqb i) p_inds.

(** [np.argsort]: the indices that sort the values in ascending order, equal
    values keeping their order. *)
Fixpoint insert_key (x : nat * R) (l : list (nat * R)) : list (nat * R) :=
  match l with
  | [] => [x]
  | y :: tl => if Rle_dec (snd x) (snd y) then x :: y :: tl else y :: insert_key x tl
  end.

Definition enumerate {A : Type} (start : nat) (xs : list A) : list (nat * A) :=
  combine (seq start (length xs)) xs.

Definition argsort (xs : list R) : list nat :=
  map fst (fold_right insert_key [] (enumerate 0 xs)).

(** ** Scenarios

    Concrete simulations, and the REBOUND side of them.  The orbits are
    circular and the frame is only ever turned about the z axis, where what
    REBOUND computes is elementary: the mean longitude is the true longitude,
    and turning the frame by an angle adds it to every longitude. *)

Definition circular_l (e_ pomega_ longitude : R) : R := longitude.

Definition planar_reorient (Omega_ I_ omega_ : R) (b : Body) : Body :=
  mkBody (m b) (a b) (e b) (inc b)
         (pomega b + (Omega_ + omega_)) (Omega b + (Omega_ + omega_))
         (theta b + (Omega_ + omega_)) (r b).

(** Particle [k] has period [k], as in a system with periods 1, 2 and 3. *)
Definition scenario_period (sim : Sim) (k : nat) : R := INR k.

Definition star : Body := mkBody 1 0 0 0 0 0 0 0.

Definition planet (mass axis : R) : Body := mkBody mass axis 0 0 0 0 0 (1 / 100).

(** A dominant body of mass 1 and three planets of mass 1e-5 on circular
    orbits. *)
Definition three_planets : Sim :=
  mkSim 1 (Num (1 / 1000)) ias15 0
        [star; planet (1 / 100000) 1; planet (1 / 100000) 2; planet (1 / 100000) 3].

(** The same system with the innermost planet on a hyperbolic orbit of
    eccentricity 1.2. *)
Definition hyperbolic_sim : Sim :=
  mkSim 1 (Num (1 / 1000)) ias15 0
        [star; mkBody (1 / 100000) (- 1) (12 / 10) 0 0 0 0 0;
         planet (1 / 100000) 2; planet (1 / 100000) 3].


Definition fresh_planet (axis : R) : Body := mkBody (1 / 100000) axis 0 0 0 0 0 0.

(** What [copy_sim(three_planets, [1, 2, 3])] returns. *)
Definition reduced_three : Sim :=
  mkSim (4 * PI ^ 2) (Num (1 / 1000)) ias15 0
        [star; fresh_planet 1; fresh_planet 2; fresh_planet 3].

(** Reduced simulations after a merger: two survivors of given masses and
    semi-major axes, at the same distance or out of order, and no survivor. *)
Definition survivors (m1 a1 m2 a2 : R) : Sim :=
  mkSim (4 * PI ^ 2) (Num (1 / 1000)) ias15 0 [star; planet m1 a1; planet m2 a2].

Definition tied_pair : Sim := survivors (2 / 100000) (3 / 2) (1 / 100000) (3 / 2).

Definition swapped_pair : Sim := survivors (2 / 100000) (5 / 2) (1 / 100000) (6 / 5).

Definition no_survivor : Sim :=
  mkSim (4 * PI ^ 2) (Num (1 / 1000)) ias15 0 [star].

(** A particle of [three_planets] after [replace_p] and the rotation back by
    the angles 0 and 0. *)
Definition turned (mass axis radius : R) : Body :=
  mkBody mass axis 0 0 (0 + (- 0 + 0)) (0 + (- 0 + 0)) (0 + (- 0 + 0)) radius.

(** [three_planets] with its trio replaced by two bodies, in this order. *)
Definition two_left (m1 a1 m2 a2 : R) : Sim :=
  mkSim 1 (Num (1 / 1000)) ias15 0
        [turned 1 0 0; turned m1 a1 (1 / 100); turned m2 a2 (1 / 100)].

(** ** Notions used in the statements *)

(** The bodies [sim.particles[:sim.N_real]]. *)
Definition real_bodies (sim : Sim) : list Body := firstn (N_real sim) (particles sim).

(** The bodies [sim.particles[1:sim.N_real]]. *)
Definition planets (sim : Sim) : list Body := skipn 1 (real_bodies sim).

(** The particle [sim.add] makes from the elements of [b]: the radius is not
    carried over. *)
Definition fresh (b : Body) : Body :=
  mkBody (m b) (a b) (e b) (inc b) (pomega b) (Omega b) (theta b) 0.

(** The bodies of [bodies], which start at index [i], that [p_inds] selects. *)
Fixpoint selected (p_inds : list nat) (i : nat) (bodies : list Body) : list Body :=
  match bodies with
  | [] => []
  | b :: tl => (if contains p_inds i then [fresh b] else []) ++ selected p_inds (S i) tl
  end.

(** A particle of the reduced simulation once [replace_trio] has rescaled it. *)
Definition rescaled (original_a1 : R) (b : Body) : Body := with_a (original_a1 * a b) b.

(** Order of (index, value) pairs by value. *)
Definition key_le (p q : nat * R) : Prop := snd p <= snd q.

(** The particles of the reduced simulation once [replace_trio] has rescaled
    them. *)
Definition rescale_all (original_a1 : R) (new_ps : list Body) : list Body :=
  match new_ps with
  | [] => []
  | hd :: tl => hd :: map (rescaled original_a1) tl
  end.


(** A bound orbit.  REBOUND reads such elements from a particle, and takes
    them in [sim.add] and when an element is set; a positive factor on the
    semi-major axis keeps the orbit bound. *)
Definition bound (b : Body) : Prop := 0 < a b /\ 0 <= e b < 1.

(** A dominant body of positive mass with bodies of non-negative mass on
    bound orbits: a simulation in which every orbit is defined. *)
Definition planetary (sim : Sim) : Prop :=
  exists b0 tl,
    particles sim = b0 :: tl /\ 0 < m b0 /\ Forall (fun b => 0 <= m b /\ bound b) tl.


Section Rebound.

(** What REBOUND computes and the module only uses. *)
Variable theta_to_l : R -> R -> R -> R.   (* e, pomega, theta |-> l *)
Variable l_to_theta : R -> R -> R -> R.   (* e, pomega, l |-> theta *)
Variable period : Sim -> nat -> R.        (* sim.particles[k].P *)
Variable reorient : R -> R -> R -> Body -> Body.
  (* Omega, I, omega, a particle |-> the particle in the rotated frame *)

(** [p.l] and [p.l = v] *)
Definition l (b : Body) : R := theta_to_l (e b) (pomega b) (theta b).
Definition with_l (v : R) (b : Body) : Body := with_theta (l_to_theta (e b) (pomega b) v) b.

(** [check_valid_sim(sim)] *)
Definition check_valid_sim : M Sim unit :=
  sim <~ get ;;
  let ms := map m (firstn (N_real sim) (particles sim)) in
  lowest <~ lift (np_min ms) ;;
  if Rlt_dec lowest 0 then raise NegativeMassError
  else
    highest <~ lift (np_max ms) ;;
    ms0 <~ lift (getitem ms 0) ;;
    if Req_dec_T highest ms0 then ret tt
    else raise NonDominantPrimaryError.

(** The array [Ps*(1-es)**1.5/np.sqrt(1+es)]. *)
Definition peri_times (Ps es : list R) : list R :=
  map (fun Pe => fst Pe * py_pow (1 - snd Pe) (15 / 10) / sqrt (1 + snd Pe)) (combine Ps es).

(** [set_integrator_and_timestep(sim)] *)
Definition set_integrator_and_timestep : M Sim unit :=
  sim <~ get ;;
  let Ps := map (period sim) (seq 1 (N_real sim - 1)) in
  let es := map e (skipn 1 (firstn (N_real sim) (particles sim))) in
  max_e <~ lift (np_max es) ;;
  _ <~ (if Rlt_dec max_e 1 then
          minTperi <~ lift (np_min (peri_times Ps es)) ;;
          sim <~ get ;; put (set_dt sim (Num (5 / 100 * minTperi)))
        else
          sim <~ get ;; put (set_dt sim NaN)) ;;
  max_e <~ lift (np_max es) ;;
  if Rgt_dec max_e (99 / 100) then
    sim <~ get ;; put (set_integrator sim ias15)
  else
    sim <~ get ;; put (set_integrator sim whfast).

(** The body of both loops of [copy_sim], on the copy under construction;
    [scale_m] and [scale_a] are the divisions by [Mstar] and by [a1] of the
    scaled loop, and do nothing in the other. *)
Definition copy_body (sim : Sim) (p_inds : list nat)
    (scale_m scale_a : R -> result R) (i : nat) : M Sim unit :=
  if contains p_inds i then
    mi <~ lift (mass_at sim i) ;;
    mi' <~ lift (scale_m mi) ;;
    ai <~ lift (element_at a sim i) ;;
    ai' <~ lift (scale_a ai) ;;
    ei <~ lift (element_at e sim i) ;;
    inci <~ lift (element_at inc sim i) ;;
    pomegai <~ lift (element_at pomega sim i) ;;
    Omegai <~ lift (element_at Omega sim i) ;;
    thetai <~ lift (element_at theta sim i) ;;
    sim_copy <~ get ;;
    put (add_orbit sim_copy mi' ai' ei inci pomegai Omegai thetai)
  else ret tt.

(** [copy_sim(sim, p_inds, scaled)]; the state is the new simulation. *)
Definition copy_sim_steps (sim : Sim) (p_inds : list nat) (scaled : bool) : M Sim unit :=
  sim_copy <~ get ;;
  _ <~ put (set_G sim_copy (4 * PI ^ 2)) ;;
  _ <~ (if scaled then
          sim_copy <~ get ;;
          _ <~ put (add_m sim_copy 1) ;;
          lowest <~ lift (min_index p_inds) ;;
          a1 <~ lift (element_at a sim lowest) ;;
          Mstar <~ lift (mass_at sim 0) ;;
          for_range (copy_body sim p_inds (fun x => py_div x Mstar) (fun x => py_div x a1))
                    1 (N sim - 1)
        else ret tt) ;;
  if negb scaled then
    m0 <~ lift (mass_at sim 0) ;;
    sim_copy <~ get ;;
    _ <~ put (add_m sim_copy m0) ;;
    for_range (copy_body sim p_inds (fun x => Ok x) (fun x => Ok x)) 1 (N sim - 1)
  else ret tt.

Definition copy_sim (sim : Sim) (p_inds : list nat) (scaled : bool) : result Sim :=
  match copy_sim_steps sim p_inds scaled Simulation with
  | (Ok _, sim_copy) => Ok sim_copy
  | (Err err, _) => Err err
  end.

(** [replace_p(sim, p_ind, new_particle)] *)
Definition replace_p (sim : Sim) (p_ind : nat) (new_particle : Body) : result Sim :=
  sim <- set_mass_at sim p_ind (m new_particle) ;;
  sim <- set_element_at (with_a (a new_particle)) sim p_ind ;;
  sim <- set_element_at (with_e (e new_particle)) sim p_ind ;;
  sim <- set_element_at (with_inc (inc new_particle)) sim p_ind ;;
  sim <- set_element_at (with_pomega (pomega new_particle)) sim p_ind ;;
  sim <- set_element_at (with_Omega (Omega new_particle)) sim p_ind ;;
  set_element_at (with_l (l new_particle)) sim p_ind.

(** [for p in sim.particles[:sim.N_real]] rotating both state vectors. *)
Definition reorient_real (Omega_ I_ omega_ : R) (sim : Sim) : Sim :=
  set_particles sim
    (map (reorient Omega_ I_ omega_) (firstn (N_real sim) (particles sim))
       ++ skipn (N_real sim) (particles sim)).

(** [new_ps[i].a = original_a1*new_ps[i].a] for [i] from 1, on the reduced
    simulation. *)
Definition rescale_body (original_a1 : R) (i : nat) : M Sim unit :=
  new_state_sim <~ get ;;
  ai <~ lift (element_at a new_state_sim i) ;;
  new_state_sim' <~ lift (set_element_at (with_a (original_a1 * ai)) new_state_sim i) ;;
  put new_state_sim'.

(** [for i, ind in enumerate(sort_inds): replace_p(ordered_sim, i+1, ps[int(ind)+1])] *)
Fixpoint reorder (ps : list Body) (i_inds : list (nat * nat)) (ordered_sim : Sim) : result Sim :=
  match i_inds with
  | [] => Ok ordered_sim
  | (i, ind) :: rest =>
      p <- getitem ps (ind + 1) ;;
      ordered_sim <- replace_p ordered_sim (i + 1) p ;;
      reorder ps rest ordered_sim
  end.

(** [replace_trio(original_sim, trio_inds, new_state_sim, theta1, theta2)];
    the state is [new_state_sim], the caller's reduced simulation. *)
Definition replace_trio (original_sim : Sim) (trio_inds : nat * nat * nat)
    (theta1 theta2 : R) : M Sim Sim :=
  let '(ind1, ind2, ind3) := trio_inds in
  original_a1 <~ lift (element_at a original_sim ind1) ;;
  new_state_sim <~ get ;;
  _ <~ for_range (rescale_body original_a1) 1 (N new_state_sim - 1) ;;
  new_state_sim <~ get ;;
  let new_ps := particles new_state_sim in
  let sim_copy : option Sim := None in
  sim_copy <~ (if (length new_ps =? 3)%nat then
                 lift (p1 <- getitem new_ps 1 ;;
                       sim_copy <- replace_p original_sim ind1 p1 ;;
                       p2 <- getitem new_ps 2 ;;
                       sim_copy <- replace_p sim_copy ind2 p2 ;;
                       sim_copy <- remove sim_copy ind3 ;;
                       Ok (Some sim_copy))
               else ret sim_copy) ;;
  sim_copy <~ (if (length new_ps =? 2)%nat then
                 lift (p1 <- getitem new_ps 1 ;;
                       sim_copy <- replace_p original_sim ind1 p1 ;;
                       sim_copy <- remove sim_copy ind3 ;;
                       sim_copy <- remove sim_copy ind2 ;;
                       Ok (Some sim_copy))
               else ret sim_copy) ;;
  sim_copy <~ (if (length new_ps =? 1)%nat then
                 lift (sim_copy <- remove original_sim ind3 ;;
                       sim_copy <- remove sim_copy ind2 ;;
                       sim_copy <- remove sim_copy ind1 ;;
                       Ok (Some sim_copy))
               else ret sim_copy) ;;
  sim_copy <~ match sim_copy with
              | Some sim_copy => ret sim_copy
              | None => raise UnboundLocalError
              end ;;
  let sim_copy := reorient_real (- theta1) (- theta2) 0 sim_copy in
  let ps := particles sim_copy in
  let semi_as := map a (skipn 1 ps) in
  let sort_inds := argsort semi_as in
  lift (reorder ps (enumerate 0 sort_inds) sim_copy).

(** ** The other functions of the module *)

(** [check_hyperbolic(sim)]; [sim.orbits()] takes [sim.particles[0]] as the
    first primary, then gives the orbits of [sim.particles[1:sim.N_real]]. *)
Definition check_hyperbolic (sim : Sim) : result bool :=
  _ <- getitem (particles sim) 0 ;;
  let orbits := skipn 1 (firstn (N_real sim) (particles sim)) in
  amin <- np_min (map a orbits) ;;
  if Rlt_dec amin 0 then Ok true else Ok false.

(** [get_rad(m)] *)
Definition get_rad (mass : R) : R :=
  let rad := py_pow (mass / (27 / 10 * (3 / 1000000))) (1 / (13 / 10)) in
  rad * (426 / 1000000).

(** [p.r = v] *)
Definition with_r (v : R) (b : Body) : Body :=
  mkBody (m b) (a b) (e b) (inc b) (pomega b) (Omega b) (theta b) v.

(** *** [revert_sim_units] *)

(** A simulation with its time [sim.t], which the other functions never
    read. *)
Record Timed : Type := mkTimed {
  sim_of : Sim;
  time_of : R
}.

(** Setting [sim.units] is REBOUND's: for three names of units it installs
    a gravitational constant, or raises when it does not take them. *)
Variable unit_name : Type.
Variable set_units : unit_name -> unit_name -> unit_name -> result R.

(** The dictionary [original_units]; [None] is Python's. *)
Record Units : Type := mkUnits {
  length_unit : option unit_name;
  mass_unit : option unit_name;
  time_unit : option unit_name
}.

(** The body of the inner loop, on the simulation under construction. *)
Definition revert_body (sim : Sim) (original_Mstars original_a1s : list R) (i j : nat)
    : M Sim unit :=
  mj <~ lift (mass_at sim j) ;;
  Mstar <~ lift (getitem original_Mstars i) ;;
  aj <~ lift (element_at a sim j) ;;
  a1 <~ lift (getitem original_a1s i) ;;
  ej <~ lift (element_at e sim j) ;;
  incj <~ lift (element_at inc sim j) ;;
  pomegaj <~ lift (element_at pomega sim j) ;;
  Omegaj <~ lift (element_at Omega sim j) ;;
  thetaj <~ lift (element_at theta sim j) ;;
  sim_copy <~ get ;;
  put (add_orbit sim_copy (mj * Mstar) (aj * a1) ej incj pomegaj Omegaj thetaj).

(** The body of the outer loop: the simulation built from [sims[i]]. *)
Definition revert_one (i : nat) (tsim : Timed) (original_Mstars original_a1s : list R)
    (original_G : R) (original_units : Units) (original_P1s : option (list R))
    : result Timed :=
  let sim := sim_of tsim in
  let steps : M Sim unit :=
    sim_copy <~ get ;;
    _ <~ put (set_G sim_copy original_G) ;;
    _ <~ match length_unit original_units, mass_unit original_units,
               time_unit original_units with
         | Some ul, Some um, Some ut =>
             G_units <~ lift (set_units ul um ut) ;;
             sim_copy <~ get ;; put (set_G sim_copy G_units)
         | _, _, _ => ret tt
         end ;;
    Mstar <~ lift (getitem original_Mstars i) ;;
    sim_copy <~ get ;;
    _ <~ put (add_m sim_copy Mstar) ;;
    for_range (revert_body sim original_Mstars original_a1s i) 1 (N sim - 1) in
  match steps Simulation with
  | (Err err, _) => Err err
  | (Ok _, sim_copy) =>
      match original_P1s with
      | None => Ok (mkTimed sim_copy 0)
      | Some P1s => P1 <- getitem P1s i ;; Ok (mkTimed sim_copy (time_of tsim * P1))
      end
  end.

(** The outer loop from index [i] on. *)
Fixpoint revert_from (i : nat) (sims : list Timed) (original_Mstars original_a1s : list R)
    (original_G : R) (original_units : Units) (original_P1s : option (list R))
    : result (list Timed) :=
  match sims with
  | [] => Ok []
  | tsim :: rest =>
      sim_copy <- revert_one i tsim original_Mstars original_a1s original_G
                    original_units original_P1s ;;
      revertedsims <- revert_from (S i) rest original_Mstars original_a1s original_G
                        original_units original_P1s ;;
      Ok (sim_copy :: revertedsims)
  end.

(** [revert_sim_units(sims, original_Mstars, original_a1s, original_G,
    original_units, original_P1s)] *)
Definition revert_sim_units (sims : list Timed) (original_Mstars original_a1s : list R)
    (original_G : R) (original_units : Units) (original_P1s : option (list R))
    : result (list Timed) :=
  revert_from 0 sims original_Mstars original_a1s original_G original_units original_P1s.

(** *** [init_sim_parameters] *)

(** The settings of a simulation that [init_sim_parameters] writes beside
    those of [Sim]. *)
Inductive Collision : Type := collision_none | collision_line | collision_direct.

Record Setup : Type := mkSetup {
  simulation : Sim;
  collision : Collision;
  exit_max_distance : R;
  keep_unsynchronized : nat;
  safe_mode : nat
}.

Definition set_simulation (st : Setup) (v : Sim) : Setup :=
  mkSetup v (collision st) (exit_max_distance st) (keep_unsynchronized st) (safe_mode st).
Definition set_collision (st : Setup) (v : Collision) : Setup :=
  mkSetup (simulation st) v (exit_max_distance st) (keep_unsynchronized st) (safe_mode st).
Definition set_exit_max_distance (st : Setup) (v : R) : Setup :=
  mkSetup (simulation st) (collision st) v (keep_unsynchronized st) (safe_mode st).
Definition set_keep_unsynchronized (st : Setup) (v : nat) : Setup :=
  mkSetup (simulation st) (collision st) (exit_max_distance st) v (safe_mode st).
Definition set_safe_mode (st : Setup) (v : nat) : Setup :=
  mkSetup (simulation st) (collision st) (exit_max_distance st) (keep_unsynchronized st) v.

(** A function of [Sim] run on the simulation of a [Setup]. *)
Definition on_sim {A : Type} (c : M Sim A) : M Setup A :=
  fun st => let (res, sim) := c (simulation st) in (res, set_simulation st sim).

(** What is REBOUND's: whether this version takes ['line'] as collision
    mode, the distance [p.d] of a particle from the origin, the variational
    particles that [sim.init_megno] appends, and [sim.move_to_com]. *)
Variable line_supported : bool.
Variable distance : Sim -> nat -> R.
Variable variational : Sim -> list Body.
Variable move_to_com : Sim -> Sim.

(** [sim.init_megno(seed=0)]: variational particles are appended; the real
    ones are left alone. *)
Definition init_megno (sim : Sim) : Sim :=
  mkSim (G sim) (dt sim) (integrator sim)
        (N_var sim + length (variational sim)) (particles sim ++ variational sim).

(** [rH = p.a*(p.m/3./sim.particles[0].m)**(1./3.); p.r = rH] for the
    particle at index [k]. *)
Definition hill_body (k : nat) : M Sim unit :=
  sim <~ get ;;
  ak <~ lift (element_at a sim k) ;;
  mk <~ lift (mass_at sim k) ;;
  m0 <~ lift (mass_at sim 0) ;;
  ratio <~ lift (py_div (mk / 3) m0) ;;
  let rH := ak * py_pow ratio (1 / 3) in
  p <~ lift (getitem (particles sim) k) ;;
  ps <~ lift (setitem (particles sim) k (with_r rH p)) ;;
  put (set_particles sim ps).

(** [init_sim_parameters(sim, megno, safe_mode)] *)
Definition init_sim_parameters (megno : bool) (safe_mode_ : nat) : M Setup unit :=
  _ <~ on_sim check_valid_sim ;;
  st <~ get ;;
  _ <~ put (set_collision st (if line_supported then collision_line else collision_direct)) ;;
  st <~ get ;;
  let sim := simulation st in
  maxd <~ lift (np_max (map (distance sim) (seq 1 (N_real sim - 1)))) ;;
  _ <~ put (set_exit_max_distance st (100 * maxd)) ;;
  st <~ get ;;
  _ <~ put (set_keep_unsynchronized st 0) ;;
  st <~ get ;;
  _ <~ put (set_safe_mode st safe_mode_) ;;
  st <~ get ;;
  _ <~ (if (N_var (simulation st) =? 0)%nat && megno
        then put (set_simulation st (init_megno (simulation st)))
        else ret tt) ;;
  _ <~ on_sim set_integrator_and_timestep ;;
  _ <~ on_sim (sim <~ get ;; for_range hill_body 1 (N_real sim - 1)) ;;
  st <~ get ;;
  put (set_simulation st (move_to_com (simulation st))).

(** ** Notions used in the statements about the other functions *)

(** The bodies of [bodies], which start at index [i], that [p_inds] selects,
    each through [f]. *)
Fixpoint selected_with (f : Body -> Body) (p_inds : list nat) (i : nat) (bodies : list Body)
    : list Body :=
  match bodies with
  | [] => []
  | b :: tl => (if contains p_inds i then [f b] else []) ++ selected_with f p_inds (S i) tl
  end.

(** The particle that the scaled loop of [copy_sim] adds for [b]. *)
Definition scaled_body (Mstar a1 : R) (b : Body) : Body :=
  mkBody (m b / Mstar) (a b / a1) (e b) (inc b) (pomega b) (Omega b) (theta b) 0.

(** The particle that [revert_sim_units] adds for [b]. *)
Definition reverted_body (Mstar a1 : R) (b : Body) : Body :=
  mkBody (m b * Mstar) (a b * a1) (e b) (inc b) (pomega b) (Omega b) (theta b) 0.

(** What setting the units of a simulation that [revert_sim_units] builds
    comes to: the gravitational constant of the units when all three are
    given and REBOUND takes them, [original_G] when one is missing. *)
Definition installed_G (original_G : R) (original_units : Units) : result R :=
  match length_unit original_units, mass_unit original_units, time_unit original_units with
  | Some ul, Some um, Some ut => set_units ul um ut
  | _, _, _ => Ok original_G
  end.

(** The time of the simulation that [revert_sim_units] returns for the one at
    index [i]. *)
Definition reverted_time (original_P1s : option (list R)) (i : nat) (tsim : Timed) : R :=
  match original_P1s with
  | None => 0
  | Some P1s => time_of tsim * nth i P1s 0
  end.

(** The simulation that [revert_sim_units] returns for the one at index [i],
    under the gravitational constant [G_units]. *)
Definition reverted (original_Mstars original_a1s : list R) (G_units : R)
    (original_P1s : option (list R)) (i : nat) (tsim : Timed) : Timed :=
  mkTimed
    (mkSim G_units (Num (1 / 1000)) ias15 0
           (mkBody (nth i original_Mstars 0) 0 0 0 0 0 0 0
              :: map (reverted_body (nth i original_Mstars 0) (nth i original_a1s 0))
                     (tl (particles (sim_of tsim)))))
    (reverted_time original_P1s i tsim).

(** A result that is either normal or the exception of a subscript out of
    range. *)
Definition index_error_only {A : Type} (c : result A) : Prop :=
  match c with
  | Ok _ => True
  | Err err => err = IndexError
  end.

(** A body with the radius [init_sim_parameters] gives it: its Hill radius
    about a dominant mass [m0]. *)
Definition hill_sized (m0 : R) (p : Body) : Body :=
  with_r (a p * py_pow (m p / 3 / m0) (1 / 3)) p.

(** The collision mode [init_sim_parameters] ends up with. *)
Definition collision_mode : Collision :=
  if line_supported then collision_line else collision_direct.

(** ** Scenarios for the other functions *)

(** The settings of a simulation nobody has configured. *)
Definition default_setup (sim : Sim) : Setup := mkSetup sim collision_none 0 0 1.

(** REBOUND's side of a scenario: particle [k] is at distance [k], every real
    particle gets a variational one, and the centre of mass is where the
    origin is. *)
Definition scenario_distance (sim : Sim) (k : nat) : R := INR k.

Definition shadow_particles (sim : Sim) : list Body := real_bodies sim.

Definition resting (sim : Sim) : Sim := sim.

(** A dominant body with a planet of negative mass, and one whose only
    planet has semi-major axis zero. *)
Definition negative_planet : Sim :=
  mkSim 1 (Num (1 / 1000)) ias15 0 [star; planet (- (1 / 100000)) 1].

Definition collapsed_orbit : Sim :=
  mkSim 1 (Num (1 / 1000)) ias15 0 [star; planet (1 / 100000) 0].
(** ** Notions used in the statements, over REBOUND's functions *)

(** Pericentre passage time of body [b] at index [k]. *)
Definition Tperi (sim : Sim) (k : nat) (b : Body) : R :=
  period sim k * Rpower (1 - e b) (15 / 10) / sqrt (1 + e b).

(** What [replace_p] leaves in a slot that held [old]. *)
Definition replaced (old new_particle : Body) : Body :=
  with_l (l new_particle)
    (with_Omega (Omega new_particle)
       (with_pomega (pomega new_particle)
          (with_inc (inc new_particle)
             (with_e (e new_particle)
                (with_a (a new_particle)
                   (with_m (m new_particle) old)))))).

(** The slots that the last loop of [replace_trio] rewrites. *)
Definition refill (ps : list Body) (d : Body) (todo : list Body) (inds : list nat) : list Body :=
  map (fun oi => replaced (fst oi) (nth (snd oi + 1) ps d)) (combine todo inds).

(** What [replace_trio] computes from the rescaled particles [new_ps]. *)
Definition splice (original_sim : Sim) (trio_inds : nat * nat * nat) (theta1 theta2 : R)
    (new_ps : list Body) : result Sim :=
  let '(ind1, ind2, ind3) := trio_inds in
  sim_copy <-
    match new_ps with
    | [_; p1; p2] =>
        sim_copy <- replace_p original_sim ind1 p1 ;;
        sim_copy <- replace_p sim_copy ind2 p2 ;;
        remove sim_copy ind3
    | [_; p1] =>
        sim_copy <- replace_p original_sim ind1 p1 ;;
        sim_copy <- remove sim_copy ind3 ;;
        remove sim_copy ind2
    | [_] =>
        sim_copy <- remove original_sim ind3 ;;
        sim_copy <- remove sim_copy ind2 ;;
        remove sim_copy ind1
    | _ => Err UnboundLocalError
    end ;;
  let sim_copy := reorient_real (- theta1) (- theta2) 0 sim_copy in
  reorder (particles sim_copy)
    (enumerate 0 (argsort (map a (skipn 1 (particles sim_copy))))) sim_copy.

Ltac case_result :=
  match goal with
  | |- context [match ?c with Ok _ => _ | Err _ => _ end] => destruct c eqn:?
  | |- context [let (_, _) := ?c in _] => destruct c eqn:?
  | |- context [if ?c then _ else _] => destruct c eqn:?
  end.

(** * Properties *)

(** ** Sequences *)

Lemma getitem_Ok {A : Type} (xs : list A) (k : nat) (x : A) :
  getitem xs k = Ok x <-> nth_error xs k = Some x.
Proof.
  unfold getitem. destruct (nth_error xs k); split; intro H; inversion H; reflexivity.
Qed.


Lemma setitem_spec {A : Type} (xs : list A) (k : nat) (v x : A) :
  nth_error xs k = Some x ->
  exists xs', setitem xs k v = Ok xs'
    /\ nth_error xs' k = Some v
    /\ (forall k', k' <> k -> nth_error xs' k' = nth_error xs k')
    /\ length xs' = length xs.
Proof.
  revert k. induction xs as [|hd tl IH]; intros [|k] H; simpl in *; try discriminate.
  - exists (v :: tl). repeat split. intros [|k'] Hk; [congruence | reflexivity].
  - destruct (IH k H) as (tl' & E & Hk & Hother & Hlen).
    exists (hd :: tl'). rewrite E. simpl. repeat split; auto.
    intros [|k'] Hk'; simpl; [reflexivity | apply Hother; congruence].
Qed.

(** ** Reductions of arrays *)

Lemma fold_left_Rmin_spec (tl : list R) (x : R) :
  In (fold_left Rmin tl x) (x :: tl)
  /\ forall y, In y (x :: tl) -> fold_left Rmin tl x <= y.
Proof.
  revert x. induction tl as [|h tl IH]; intro x; simpl.
  - split; [auto | intros y [<-|[]]; lra].
  - destruct (IH (Rmin x h)) as [Hin Hle]. split.
    + destruct Hin as [E|Hin]; [|auto].
      rewrite <- E. unfold Rmin. destruct (Rle_dec x h); auto.
    + intros y Hy.
      assert (Hm : fold_left Rmin tl (Rmin x h) <= Rmin x h) by (apply Hle; left; reflexivity).
      destruct Hy as [<-|[<-|Hy]].
      * pose proof (Rmin_l x h). lra.
      * pose proof (Rmin_r x h). lra.
      * apply Hle. right. exact Hy.
Qed.

Lemma fold_left_Rmax_spec (tl : list R) (x : R) :
  In (fold_left Rmax tl x) (x :: tl)
  /\ forall y, In y (x :: tl) -> y <= fold_left Rmax tl x.
Proof.
  revert x. induction tl as [|h tl IH]; intro x; simpl.
  - split; [auto | intros y [<-|[]]; lra].
  - destruct (IH (Rmax x h)) as [Hin Hle]. split.
    + destruct Hin as [E|Hin]; [|auto].
      rewrite <- E. unfold Rmax. destruct (Rle_dec x h); auto.
    + intros y Hy.
      assert (Hm : Rmax x h <= fold_left Rmax tl (Rmax x h)) by (apply Hle; left; reflexivity).
      destruct Hy as [<-|[<-|Hy]].
      * pose proof (Rmax_l x h). lra.
      * pose proof (Rmax_r x h). lra.
      * apply Hle. right. exact Hy.
Qed.

Lemma np_min_spec (xs : list R) :
  xs <> [] ->
  exists v, np_min xs = Ok v /\ In v xs /\ forall y, In y xs -> v <= y.
Proof.
  destruct xs as [|x tl]; [congruence|]. intros _.
  exists (fold_left Rmin tl x). split; [reflexivity | apply fold_left_Rmin_spec].
Qed.

Lemma np_max_spec (xs : list R) :
  xs <> [] ->
  exists v, np_max xs = Ok v /\ In v xs /\ forall y, In y xs -> y <= v.
Proof.
  destruct xs as [|x tl]; [congruence|]. intros _.
  exists (fold_left Rmax tl x). split; [reflexivity | apply fold_left_Rmax_spec].
Qed.

(** ** Validation *)

(** C6: on a state that has a dominant body, [check_valid_sim] raises the
    negative-mass error exactly when some body has a negative mass, raises the
    primary error exactly when no mass is negative and some body is heavier
    than the body at index 0, returns normally in every other case, and in all
    three cases leaves the state as it was. *)
Theorem check_valid_sim_spec (sim : Sim) (b0 : Body) (rest : list Body) :
  real_bodies sim = b0 :: rest ->
  (fst (check_valid_sim sim) = Err NegativeMassError
     <-> exists b, In b (real_bodies sim) /\ m b < 0)
  /\ (fst (check_valid_sim sim) = Err NonDominantPrimaryError
     <-> (forall b, In b (real_bodies sim) -> 0 <= m b)
         /\ exists b, In b (real_bodies sim) /\ m b0 < m b)
  /\ (fst (check_valid_sim sim) = Ok tt
     <-> (forall b, In b (real_bodies sim) -> 0 <= m b)
         /\ forall b, In b (real_bodies sim) -> m b <= m b0)
  /\ snd (check_valid_sim sim) = sim.
Proof.
  intro Hreal. unfold real_bodies in *.
  unfold check_valid_sim, mbind, get, lift, raise, ret.
  rewrite Hreal.
  set (ms := map m (b0 :: rest)).
  assert (Hne : ms <> []) by (subst ms; simpl; congruence).
  destruct (np_min_spec ms Hne) as (lo & Elo & Hlo_in & Hlo).
  destruct (np_max_spec ms Hne) as (hi & Ehi & Hhi_in & Hhi).
  rewrite Elo. cbn [fst snd].
  assert (Hin : forall b, In b (b0 :: rest) -> In (m b) ms)
    by (intros b Hb; subst ms; now apply in_map).
  assert (Hout : forall v, In v ms -> exists b, In b (b0 :: rest) /\ m b = v).
  { intros v Hv. subst ms. apply in_map_iff in Hv. destruct Hv as (b & E & Hb). eauto. }
  destruct (Rlt_dec lo 0) as [Hneg|Hpos].
  - simpl. repeat split; try discriminate.
    + intros _. destruct (Hout lo Hlo_in) as (b & Hb & E). exists b. split; [exact Hb | lra].
    + intros [Hall _]. destruct (Hout lo Hlo_in) as (b & Hb & E).
      specialize (Hall b Hb). lra.
    + intros [Hall _]. destruct (Hout lo Hlo_in) as (b & Hb & E).
      specialize (Hall b Hb). lra.
  - rewrite Ehi. replace (getitem ms 0) with (Ok (m b0)) by reflexivity.
    assert (Hnn : forall b, In b (b0 :: rest) -> 0 <= m b).
    { intros b Hb. specialize (Hlo (m b) (Hin b Hb)). lra. }
    assert (H0 : m b0 <= hi) by (apply Hhi, Hin; left; reflexivity).
    destruct (Req_dec_T hi (m b0)) as [Heq|Hneq]; simpl.
    + repeat split; try discriminate; auto.
      * intros (b & Hb & Hlt). specialize (Hnn b Hb). lra.
      * intros (_ & b & Hb & Hlt). specialize (Hhi (m b) (Hin b Hb)). lra.
      * intros b Hb. specialize (Hhi (m b) (Hin b Hb)). lra.
    + repeat split; try discriminate; auto.
      * intros (b & Hb & Hlt). specialize (Hnn b Hb). lra.
      * destruct (Hout hi Hhi_in) as (b & Hb & E). exists b. split; [exact Hb | lra].
      * intros (_ & Hall). destruct (Hout hi Hhi_in) as (b & Hb & E).
        specialize (Hall b Hb). lra.
Qed.

(** ** Timestep *)

Lemma planets_length (sim : Sim) : length (planets sim) = (N_real sim - 1)%nat.
Proof.
  unfold planets, real_bodies, N_real, N.
  rewrite length_skipn, length_firstn. lia.
Qed.

Lemma peri_times_nth (f : nat -> R) (bodies : list Body) (start j : nat) :
  nth_error (peri_times (map f (seq start (length bodies))) (map e bodies)) j
  = option_map (fun b => f (start + j)%nat * py_pow (1 - e b) (15 / 10) / sqrt (1 + e b))
               (nth_error bodies j).
Proof.
  revert start j. induction bodies as [|b tl IH]; intros start j.
  - destruct j; reflexivity.
  - destruct j as [|j]; simpl.
    + now rewrite Nat.add_0_r.
    + unfold peri_times in IH. rewrite IH. now rewrite Nat.add_succ_r.
Qed.

Lemma In_nth_error_iff {A : Type} (xs : list A) (x : A) :
  In x xs <-> exists j, nth_error xs j = Some x.
Proof.
  split.
  - apply In_nth_error.
  - intros [j H]. eapply nth_error_In; eauto.
Qed.

(** C4: with at least one non-dominant body, [set_integrator_and_timestep]
    returns normally; when every such body has eccentricity below 1 the
    timestep becomes 0.05 times the least pericentre passage time
    [P*(1-e)^1.5/sqrt(1+e)] among them, and when some eccentricity is 1 or more
    it becomes the not-a-number value, which is not zero. *)
Theorem set_integrator_and_timestep_spec (sim : Sim) :
  planets sim <> [] ->
  exists sim',
    set_integrator_and_timestep sim = (Ok tt, sim')
    /\ particles sim' = particles sim
    /\ ((forall b, In b (planets sim) -> e b < 1) ->
        exists t,
          dt sim' = Num (5 / 100 * t)
          /\ (exists j b, nth_error (planets sim) j = Some b /\ t = Tperi sim (S j) b)
          /\ (forall j b, nth_error (planets sim) j = Some b -> t <= Tperi sim (S j) b))
    /\ ((exists b, In b (planets sim) /\ 1 <= e b) ->
        dt sim' = NaN /\ dt sim' <> Num 0).
Proof.
  intro Hne.
  unfold set_integrator_and_timestep, mbind, get, lift, put.
  fold (real_bodies sim). fold (planets sim).
  rewrite <- planets_length.
  set (bodies := planets sim) in *. clearbody bodies.
  set (es := map e bodies).
  set (Ps := map (period sim) (seq 1 (length bodies))).
  assert (Hes : es <> []) by (subst es; destruct bodies; simpl; congruence).
  destruct (np_max_spec es Hes) as (hi & Ehi & Hhi_in & Hhi).
  rewrite Ehi.
  assert (Hin : forall b, In b bodies -> e b <= hi)
    by (intros b Hb; apply Hhi; subst es; now apply in_map).
  assert (Hout : exists b, In b bodies /\ e b = hi).
  { subst es. apply in_map_iff in Hhi_in. destruct Hhi_in as (b & E & Hb). eauto. }
  destruct (Rlt_dec hi 1) as [Hlt|Hge].
  - assert (Hpt : peri_times Ps es <> []).
    { subst Ps es. unfold peri_times. destruct bodies; [congruence | simpl; congruence]. }
    destruct (np_min_spec _ Hpt) as (t & Et & Ht_in & Ht).
    rewrite Et.
    assert (Hpow : forall b, In b bodies ->
              py_pow (1 - e b) (15 / 10) = Rpower (1 - e b) (15 / 10)).
    { intros b Hb. unfold py_pow. specialize (Hin b Hb).
      destruct (Req_dec_T (1 - e b) 0); [lra | reflexivity]. }
    assert (Hnth : forall j v, nth_error (peri_times Ps es) j = Some v <->
              exists b, nth_error bodies j = Some b /\ v = Tperi sim (S j) b).
    { intros j v. subst Ps es. rewrite peri_times_nth. unfold Tperi.
      destruct (nth_error bodies j) as [b|] eqn:Eb; simpl.
      - rewrite (Hpow b) by (eapply nth_error_In; eauto).
        split.
        + intro H. inversion H. eauto.
        + intros (b' & E & ->). inversion E. reflexivity.
      - split; [discriminate | intros (b' & E & _); discriminate]. }
    exists (set_integrator (set_dt sim (Num (5 / 100 * t)))
              (if Rgt_dec hi (99 / 100) then ias15 else whfast)).
    split.
    { destruct (Rgt_dec hi (99 / 100)); reflexivity. }
    split. { destruct (Rgt_dec hi (99 / 100)); reflexivity. }
    split.
    + intros _. exists t. split.
      { destruct (Rgt_dec hi (99 / 100)); reflexivity. }
      split.
      * apply In_nth_error_iff in Ht_in. destruct Ht_in as [j Hj].
        apply Hnth in Hj. destruct Hj as (b & Hb & E). eauto.
      * intros j b Hb. apply Ht. apply In_nth_error_iff. exists j.
        apply Hnth. eauto.
    + intros (b & Hb & He). specialize (Hin b Hb). lra.
  - exists (set_integrator (set_dt sim NaN)
              (if Rgt_dec hi (99 / 100) then ias15 else whfast)).
    split.
    { destruct (Rgt_dec hi (99 / 100)); reflexivity. }
    split. { destruct (Rgt_dec hi (99 / 100)); reflexivity. }
    split.
    + intros Hall. destruct Hout as (b & Hb & E). specialize (Hall b Hb). lra.
    + intros _. split.
      * destruct (Rgt_dec hi (99 / 100)); reflexivity.
      * destruct (Rgt_dec hi (99 / 100)); simpl; discriminate.
Qed.

(** ** Extraction *)

Lemma skipn_cons_nth {A : Type} (xs : list A) (k : nat) (x : A) (tl : list A) :
  skipn k xs = x :: tl -> nth_error xs k = Some x /\ skipn (S k) xs = tl.
Proof.
  revert xs. induction k as [|k IH]; intros [|h xs] H; simpl in *; try discriminate.
  - inversion H. auto.
  - apply IH in H. exact H.
Qed.

Lemma copy_loop_unscaled (sim : Sim) (p_inds : list nat) (rest : list Body) :
  forall (start : nat) (sim_copy : Sim),
    (1 <= start)%nat ->
    skipn start (particles sim) = rest ->
    for_range (copy_body sim p_inds (fun x => Ok x) (fun x => Ok x)) start (length rest) sim_copy
    = (Ok tt, set_particles sim_copy (particles sim_copy ++ selected p_inds start rest)).
Proof.
  induction rest as [|b tl IH]; intros start sim_copy Hstart Hskip.
  - simpl. unfold ret, set_particles. rewrite app_nil_r. now destruct sim_copy.
  - apply skipn_cons_nth in Hskip. destruct Hskip as [Hb Htl].
    cbn [length for_range selected]. unfold mbind at 1.
    assert (Hbody : copy_body sim p_inds (fun x => Ok x) (fun x => Ok x) start sim_copy
                    = (Ok tt, set_particles sim_copy
                                (particles sim_copy
                                   ++ (if contains p_inds start then [fresh b] else [])))).
    { unfold copy_body. destruct (contains p_inds start).
      - unfold mbind, lift, get, put, mass_at, element_at, getitem, bind. rewrite Hb.
        destruct start as [|start]; [lia|]. reflexivity.
      - unfold ret, set_particles. rewrite app_nil_r. now destruct sim_copy. }
    rewrite Hbody. rewrite (IH (S start)) by (auto; lia).
    unfold set_particles. simpl. now rewrite <- app_assoc.
Qed.

Lemma copy_sim_unscaled (sim : Sim) (p_inds : list nat) (b0 : Body) (tl : list Body) :
  particles sim = b0 :: tl ->
  copy_sim sim p_inds false
  = Ok (mkSim (4 * PI ^ 2) (Num (1 / 1000)) ias15 0
          (mkBody (m b0) 0 0 0 0 0 0 0 :: selected p_inds 1 tl)).
Proof.
  intro Hps. unfold copy_sim, copy_sim_steps, mbind, get, put, ret, lift.
  cbn [negb]. unfold mass_at, getitem, bind. rewrite Hps. cbn [nth_error].
  unfold N. rewrite Hps. cbn [length]. rewrite Nat.sub_succ, Nat.sub_0_r.
  rewrite copy_loop_unscaled by (rewrite ?Hps; auto).
  reflexivity.
Qed.



(** Writes of [copy_sim] after the first never touch [G]. *)
Lemma copy_body_G (sim : Sim) (p_inds : list nat) (f g : R -> result R) (i : nat)
    (sim_copy : Sim) :
  G (snd (copy_body sim p_inds f g i sim_copy)) = G sim_copy.
Proof.
  unfold copy_body, mbind, lift, get, put, ret.
  repeat (case_result; try reflexivity).
Qed.

Lemma copy_loop_G (sim : Sim) (p_inds : list nat) (f g : R -> result R) (count : nat) :
  forall (start : nat) (sim_copy : Sim),
    G (snd (for_range (copy_body sim p_inds f g) start count sim_copy)) = G sim_copy.
Proof.
  induction count as [|count IH]; intros start sim_copy; [reflexivity|].
  cbn [for_range]. unfold mbind at 1.
  pose proof (copy_body_G sim p_inds f g start sim_copy) as HG.
  destruct (copy_body sim p_inds f g start sim_copy) as [[u|err] s1]; simpl in *.
  - now rewrite IH.
  - exact HG.
Qed.

(** C9: whatever the source simulation and the selection, with or without
    scaling, a reduced simulation that [copy_sim] returns has gravitational
    constant [4*pi^2], whatever the constant of the source was; without scaling
    it returns one for every source that has a particle 0. *)
Theorem copy_sim_G (sim : Sim) (p_inds : list nat) :
  (forall scaled sim_copy,
      copy_sim sim p_inds scaled = Ok sim_copy -> G sim_copy = 4 * PI ^ 2)
  /\ (particles sim <> [] ->
      exists sim_copy, copy_sim sim p_inds false = Ok sim_copy /\ G sim_copy = 4 * PI ^ 2).
Proof.
  split.
  - intros scaled sim_copy. unfold copy_sim.
    destruct (copy_sim_steps sim p_inds scaled Simulation) as [[u|err] s] eqn:E;
      [|discriminate].
    intro H. inversion H. subst s. clear H.
    assert (HG : G (snd (copy_sim_steps sim p_inds scaled Simulation)) = 4 * PI ^ 2).
    { clear E. unfold copy_sim_steps, mbind, get, put, lift, ret.
      destruct scaled; cbn [negb fst snd].
      - destruct (min_index p_inds) as [k|err1]; [|reflexivity].
        destruct (element_at a sim k) as [a1|err2]; [|reflexivity].
        destruct (mass_at sim 0) as [Mstar|err3]; [|reflexivity].
        pose proof (copy_loop_G sim p_inds (fun x => py_div x Mstar) (fun x => py_div x a1)
                      (N sim - 1) 1 (add_m (set_G Simulation (4 * PI ^ 2)) 1)) as HG.
        destruct (for_range _ 1 (N sim - 1) _) as [[u'|err4] s']; exact HG.
      - destruct (mass_at sim 0) as [m0|err1]; [|reflexivity].
        pose proof (copy_loop_G sim p_inds (fun x => Ok x) (fun x => Ok x)
                      (N sim - 1) 1 (add_m (set_G Simulation (4 * PI ^ 2)) m0)) as HG.
        destruct (for_range _ 1 (N sim - 1) _) as [[u'|err4] s']; exact HG. }
    now rewrite E in HG.
  - intro Hne. destruct (particles sim) as [|b0 tl] eqn:Hps; [congruence|].
    eexists. split; [apply (copy_sim_unscaled sim p_inds b0 tl Hps) | reflexivity].
Qed.


(** ** Reinsertion *)

Lemma nth_error_middle {A : Type} (pre post : list A) (x : A) :
  nth_error (pre ++ x :: post) (length pre) = Some x.
Proof.
  rewrite nth_error_app2 by lia. now rewrite Nat.sub_diag.
Qed.

Lemma setitem_middle {A : Type} (pre post : list A) (x v : A) :
  setitem (pre ++ x :: post) (length pre) v = Ok (pre ++ v :: post).
Proof.
  induction pre as [|h pre IH]; simpl; [reflexivity|]. now rewrite IH.
Qed.

Lemma set_element_at_middle (f : Body -> Body) (sim : Sim) (pre post : list Body) (b : Body) :
  particles sim = pre ++ b :: post -> pre <> [] ->
  set_element_at f sim (length pre) = Ok (set_particles sim (pre ++ f b :: post)).
Proof.
  intros Hps Hpre. unfold set_element_at, bind, getitem.
  rewrite Hps, nth_error_middle.
  destruct pre as [|h pre]; [congruence|]. cbn [length].
  change (S (length pre)) with (length (h :: pre)). now rewrite setitem_middle.
Qed.

Lemma element_at_middle (f : Body -> R) (sim : Sim) (pre post : list Body) (b : Body) :
  particles sim = pre ++ b :: post -> pre <> [] ->
  element_at f sim (length pre) = Ok (f b).
Proof.
  intros Hps Hpre. unfold element_at, bind, getitem.
  rewrite Hps, nth_error_middle. destruct pre; [congruence | reflexivity].
Qed.

Lemma replace_p_middle (sim : Sim) (pre post : list Body) (old new_particle : Body) :
  particles sim = pre ++ old :: post -> pre <> [] ->
  replace_p sim (length pre) new_particle
  = Ok (set_particles sim (pre ++ replaced old new_particle :: post)).
Proof.
  intros Hps Hpre. unfold replace_p, set_mass_at, getitem.
  rewrite Hps, nth_error_middle. cbn [bind]. rewrite setitem_middle. cbn [bind].
  repeat (erewrite set_element_at_middle; [cbn [bind] | reflexivity | exact Hpre]).
  reflexivity.
Qed.

Lemma rescale_loop (original_a1 : R) (rest : list Body) :
  forall (pre : list Body) (s : Sim),
    particles s = pre ++ rest -> pre <> [] ->
    for_range (rescale_body original_a1) (length pre) (length rest) s
    = (Ok tt, set_particles s (pre ++ map (rescaled original_a1) rest)).
Proof.
  induction rest as [|b rest IH]; intros pre s Hps Hpre.
  - simpl. unfold ret. rewrite <- Hps. now destruct s.
  - cbn [length for_range map]. unfold mbind at 1.
    assert (Hstep : rescale_body original_a1 (length pre) s
                    = (Ok tt, set_particles s (pre ++ rescaled original_a1 b :: rest))).
    { unfold rescale_body, mbind, get, lift, put.
      rewrite (element_at_middle a s pre rest b Hps Hpre).
      rewrite (set_element_at_middle _ s pre rest b Hps Hpre). reflexivity. }
    rewrite Hstep.
    specialize (IH (pre ++ [rescaled original_a1 b])
                   (set_particles s (pre ++ rescaled original_a1 b :: rest))).
    rewrite length_app in IH. simpl in IH. rewrite Nat.add_1_r in IH.
    rewrite IH.
    + unfold set_particles. simpl. now rewrite <- app_assoc.
    + simpl. now rewrite <- app_assoc.
    + destruct pre; simpl; congruence.
Qed.

(** ** Sorting by semi-major axis *)

Lemma insert_key_perm (x : nat * R) (xs : list (nat * R)) :
  Permutation (insert_key x xs) (x :: xs).
Proof.
  induction xs as [|y tl IH]; simpl; [reflexivity|].
  destruct (Rle_dec (snd x) (snd y)); [reflexivity|].
  rewrite IH. apply perm_swap.
Qed.

Lemma insert_key_sorted (x : nat * R) (xs : list (nat * R)) :
  StronglySorted key_le xs -> StronglySorted key_le (insert_key x xs).
Proof.
  induction 1 as [|y tl Hss IH Hall]; simpl.
  - repeat constructor.
  - destruct (Rle_dec (snd x) (snd y)) as [Hle|Hgt].
    + constructor; [constructor; assumption|].
      constructor; [exact Hle|].
      eapply Forall_impl; [|exact Hall]. unfold key_le. intros q Hq. lra.
    + constructor; [exact IH|].
      eapply Permutation_Forall; [symmetry; apply insert_key_perm|].
      constructor; [unfold key_le; lra | exact Hall].
Qed.

Lemma sort_keys_spec (xs : list (nat * R)) :
  Permutation (fold_right insert_key [] xs) xs
  /\ StronglySorted key_le (fold_right insert_key [] xs).
Proof.
  induction xs as [|x tl [IHp IHs]]; simpl.
  - split; constructor.
  - split.
    + rewrite insert_key_perm. now constructor.
    + now apply insert_key_sorted.
Qed.

Lemma enumerate_In {A : Type} (xs : list A) (start i : nat) (v : A) :
  In (i, v) (enumerate start xs) ->
  (start <= i)%nat /\ nth_error xs (i - start) = Some v.
Proof.
  unfold enumerate. revert start.
  induction xs as [|x tl IH]; intros start H; simpl in H; [contradiction|].
  destruct H as [H|H].
  - inversion H. subst. split; [lia|]. now rewrite Nat.sub_diag.
  - apply IH in H. destruct H as [Hle Hnth]. split; [lia|].
    replace (i - start)%nat with (S (i - S start)) by lia. exact Hnth.
Qed.

Lemma enumerate_snd {A : Type} (xs : list A) (start : nat) :
  map snd (enumerate start xs) = xs.
Proof.
  unfold enumerate. revert start. induction xs as [|x tl IH]; intro start; simpl.
  - reflexivity.
  - now rewrite IH.
Qed.

Lemma enumerate_fst {A : Type} (xs : list A) (start : nat) :
  map fst (enumerate start xs) = seq start (length xs).
Proof.
  unfold enumerate. revert start. induction xs as [|x tl IH]; intro start; simpl.
  - reflexivity.
  - now rewrite IH.
Qed.

Lemma StronglySorted_map_snd (ps : list (nat * R)) :
  StronglySorted key_le ps -> StronglySorted Rle (map snd ps).
Proof.
  induction 1 as [|p tl Hss IH Hall]; simpl; constructor; auto.
  apply Forall_map. exact Hall.
Qed.

(** [np.argsort]: the indices are those of the array, each once, and reading
    the array through them gives its values in ascending order. *)
Lemma argsort_spec (xs : list R) (d : R) :
  Permutation (argsort xs) (seq 0 (length xs))
  /\ Permutation (map (fun i => nth i xs d) (argsort xs)) xs
  /\ StronglySorted Rle (map (fun i => nth i xs d) (argsort xs)).
Proof.
  unfold argsort.
  destruct (sort_keys_spec (enumerate 0 xs)) as [Hperm Hsorted].
  set (pairs := fold_right insert_key [] (enumerate 0 xs)) in *.
  assert (Hread : map (fun i => nth i xs d) (map fst pairs) = map snd pairs).
  { rewrite map_map. apply map_ext_in. intros [i v] Hin.
    apply (Permutation_in _ Hperm) in Hin. apply enumerate_In in Hin.
    destruct Hin as [_ Hnth]. rewrite Nat.sub_0_r in Hnth. simpl.
    now apply nth_error_nth. }
  split; [|split].
  - rewrite <- (enumerate_fst xs 0). now apply Permutation_map.
  - rewrite Hread. transitivity (map snd (enumerate 0 xs)).
    + now apply Permutation_map.
    + now rewrite enumerate_snd.
  - rewrite Hread. now apply StronglySorted_map_snd.
Qed.

Lemma argsort_length (xs : list R) : length (argsort xs) = length xs.
Proof.
  destruct (argsort_spec xs 0) as [Hperm _].
  apply Permutation_length in Hperm. now rewrite length_seq in Hperm.
Qed.

Lemma argsort_range (xs : list R) (i : nat) : In i (argsort xs) -> (i < length xs)%nat.
Proof.
  destruct (argsort_spec xs 0) as [Hperm _]. intro Hin.
  apply (Permutation_in _ Hperm) in Hin. apply in_seq in Hin. lia.
Qed.

Lemma reorder_spec (ps : list Body) (d hd : Body) (inds : list nat) :
  forall (done todo : list Body) (sim : Sim),
    particles sim = hd :: done ++ todo ->
    length todo = length inds ->
    (forall ind, In ind inds -> (ind + 1 < length ps)%nat) ->
    reorder ps (combine (seq (length done) (length inds)) inds) sim
    = Ok (set_particles sim (hd :: done ++ refill ps d todo inds)).
Proof.
  induction inds as [|ind inds IH]; intros done todo sim Hps Hlen Hrange.
  - destruct todo; [|discriminate]. simpl. unfold refill. simpl.
    rewrite <- Hps. now destruct sim.
  - destruct todo as [|old todo]; [discriminate|].
    cbn [length seq combine reorder].
    assert (Hind : (ind + 1 < length ps)%nat) by (apply Hrange; now left).
    unfold getitem. rewrite (nth_error_nth' ps d Hind). cbn [bind].
    set (new := nth (ind + 1) ps d).
    replace (length done + 1)%nat with (length (hd :: done)) by (simpl; lia).
    rewrite (replace_p_middle sim (hd :: done) todo old new Hps) by discriminate.
    cbn [bind app length].
    specialize (IH (done ++ [replaced old new]) todo
                   (set_particles sim (hd :: done ++ replaced old new :: todo))).
    replace (length (done ++ [replaced old new])) with (S (length done)) in IH
      by (rewrite length_app; simpl; lia).
    rewrite IH.
    + unfold set_particles, refill. simpl. fold new. now rewrite <- app_assoc.
    + simpl. now rewrite <- app_assoc.
    + simpl in Hlen. lia.
    + intros i Hi. apply Hrange. now right.
Qed.

Lemma refill_a (ps : list Body) (d : Body) (todo : list Body) (inds : list nat) :
  length todo = length inds ->
  map a (refill ps d todo inds) = map (fun ind => a (nth (ind + 1) ps d)) inds.
Proof.
  revert todo. induction inds as [|ind inds IH]; intros [|old todo] H; try discriminate.
  - reflexivity.
  - unfold refill in *. simpl. f_equal. apply IH. simpl in H. lia.
Qed.

Lemma refill_length (ps : list Body) (d : Body) (todo : list Body) (inds : list nat) :
  length todo = length inds -> length (refill ps d todo inds) = length todo.
Proof.
  intro H. unfold refill. rewrite length_map, length_combine. lia.
Qed.

(** The last stage of [replace_trio] on any simulation: it returns a
    simulation of the same size, with the same particle 0, whose other
    particles carry the same semi-major axes in ascending order. *)
Lemma sort_stage (sim_copy : Sim) :
  exists ordered_sim,
    reorder (particles sim_copy)
      (enumerate 0 (argsort (map a (skipn 1 (particles sim_copy))))) sim_copy
    = Ok ordered_sim
    /\ length (particles ordered_sim) = length (particles sim_copy)
    /\ nth_error (particles ordered_sim) 0 = nth_error (particles sim_copy) 0
    /\ StronglySorted Rle (map a (skipn 1 (particles ordered_sim)))
    /\ Permutation (map a (skipn 1 (particles ordered_sim)))
                   (map a (skipn 1 (particles sim_copy))).
Proof.
  destruct (particles sim_copy) as [|hd tl] eqn:Hps.
  - exists sim_copy. simpl. rewrite Hps. repeat split; constructor.
  - cbn [skipn]. set (semi_as := map a tl).
    destruct (argsort_spec semi_as (a hd)) as (Hperm & Hvals & Hsorted).
    pose proof (argsort_length semi_as) as Hlen.
    assert (Hsemi : length semi_as = length tl) by (subst semi_as; apply length_map).
    unfold enumerate.
    pose proof (reorder_spec (hd :: tl) hd hd (argsort semi_as) [] tl sim_copy Hps) as Hre.
    change (length (@nil Body)) with 0%nat in Hre. rewrite Hre.
    + eexists. split; [reflexivity|]. cbn [set_particles particles app skipn nth_error length].
      assert (Ha : map a (refill (hd :: tl) hd tl (argsort semi_as))
                   = map (fun i => nth i semi_as (a hd)) (argsort semi_as)).
      { rewrite refill_a by lia. apply map_ext. intro i.
        rewrite Nat.add_1_r. cbn [nth]. subst semi_as. now rewrite map_nth. }
      rewrite Ha. repeat split; auto.
      rewrite refill_length by lia. reflexivity.
    + lia.
    + intros i Hi. apply argsort_range in Hi. simpl. lia.
Qed.

(** ** [replace_trio] in two stages *)

Lemma rescale_stage (original_a1 : R) (new_state_sim : Sim) :
  for_range (rescale_body original_a1) 1 (N new_state_sim - 1) new_state_sim
  = (Ok tt, set_particles new_state_sim (rescale_all original_a1 (particles new_state_sim))).
Proof.
  unfold N. destruct (particles new_state_sim) as [|hd tl] eqn:Hps.
  - simpl. unfold ret, set_particles. rewrite <- Hps. now destruct new_state_sim.
  - cbn [length rescale_all]. rewrite Nat.sub_succ, Nat.sub_0_r.
    apply (rescale_loop original_a1 tl [hd] new_state_sim Hps). discriminate.
Qed.

Lemma replace_trio_stages (original_sim : Sim) (ind1 ind2 ind3 : nat) (theta1 theta2 : R)
    (new_state_sim : Sim) :
  replace_trio original_sim (ind1, ind2, ind3)
    theta1 theta2 new_state_sim
  = match element_at a original_sim ind1 with
    | Err err => (Err err, new_state_sim)
    | Ok original_a1 =>
        let new_ps := rescale_all original_a1 (particles new_state_sim) in
        (splice original_sim (ind1, ind2, ind3) theta1 theta2 new_ps,
         set_particles new_state_sim new_ps)
    end.
Proof.
  unfold replace_trio. unfold mbind at 1. unfold lift at 1.
  destruct (element_at a original_sim ind1) as [original_a1|err]; [|reflexivity].
  unfold mbind at 1. unfold get at 1. unfold mbind at 1.
  rewrite rescale_stage.
  set (new_ps := rescale_all original_a1 (particles new_state_sim)).
  unfold mbind at 1. unfold get at 1. cbn [particles set_particles].
  unfold splice, mbind, lift, ret, raise.
  destruct new_ps as [|p0 [|p1 [|p2 [|p3 more]]]]; cbn [length Nat.eqb getitem nth_error bind].
  - reflexivity.
  - destruct (remove original_sim ind3) as [s3|]; [|reflexivity]. cbn [bind].
    destruct (remove s3 ind2) as [s2|]; [|reflexivity]. cbn [bind].
    destruct (remove s2 ind1) as [s1|]; reflexivity.
  - destruct (replace_p original_sim ind1 p1) as [s1|]; [|reflexivity]. cbn [bind].
    destruct (remove s1 ind3) as [s3|]; [|reflexivity]. cbn [bind].
    destruct (remove s3 ind2) as [s2|]; reflexivity.
  - destruct (replace_p original_sim ind1 p1) as [s1|]; [|reflexivity]. cbn [bind].
    destruct (replace_p s1 ind2 p2) as [s2|]; [|reflexivity]. cbn [bind].
    destruct (remove s2 ind3) as [s3|]; reflexivity.
  - reflexivity.
Qed.

Lemma rescale_all_nth (original_a1 : R) (new_ps : list Body) (i : nat) :
  nth_error (rescale_all original_a1 new_ps) i
  = match i with
    | O => nth_error new_ps 0
    | S _ => option_map (rescaled original_a1) (nth_error new_ps i)
    end.
Proof.
  destruct new_ps as [|hd tl]; destruct i as [|i]; try reflexivity.
  simpl. apply nth_error_map.
Qed.






(** ** Removal *)







Lemma StronglySorted_nth (xs : list R) :
  StronglySorted Rle xs ->
  forall i j x y, (i < j)%nat -> nth_error xs i = Some x -> nth_error xs j = Some y -> x <= y.
Proof.
  induction 1 as [|h tl Hss IH Hall]; intros i j x y Hij Hx Hy.
  - destruct i; discriminate.
  - destruct j as [|j]; [lia|]. simpl in Hy.
    destruct i as [|i]; simpl in Hx.
    + inversion Hx. subst h. rewrite Forall_forall in Hall. apply Hall.
      eapply nth_error_In; eauto.
    + apply (IH i j); auto; lia.
Qed.

(** C5 as the code has it: in every simulation [replace_trio] returns, the
    particles after particle 0 are in ascending order of semi-major axis, ties
    allowed: for slots [1 <= i < j], [a_i <= a_j]. *)
Theorem replace_trio_ascending (original_sim : Sim) (trio_inds : nat * nat * nat)
    (theta1 theta2 : R) (new_state_sim ordered_sim after : Sim) :
  replace_trio original_sim trio_inds
    theta1 theta2 new_state_sim = (Ok ordered_sim, after) ->
  forall i j bi bj,
    (1 <= i)%nat -> (i < j)%nat ->
    nth_error (particles ordered_sim) i = Some bi ->
    nth_error (particles ordered_sim) j = Some bj ->
    a bi <= a bj.
Proof.
  destruct trio_inds as [[ind1 ind2] ind3]. rewrite replace_trio_stages.
  destruct (element_at a original_sim ind1) as [original_a1|]; [|discriminate].
  cbv zeta. intro H. inversion H as [[Hsplice Hafter]]. clear H Hafter.
  unfold splice in Hsplice.
  match type of Hsplice with
  | bind ?c _ = _ => destruct c as [sim_copy|]; [|discriminate]
  end.
  cbn [bind] in Hsplice.
  destruct (sort_stage (reorient_real (- theta1) (- theta2) 0 sim_copy))
    as (res & Hsort & _ & _ & Hsorted & _).
  assert (E : Ok res = Ok ordered_sim) by (rewrite <- Hsort; exact Hsplice).
  inversion E. subst res. clear E.
  intros i j bi bj Hi Hij Hbi Hbj.
  destruct i as [|i]; [lia|]. destruct j as [|j]; [lia|].
  apply (StronglySorted_nth _ Hsorted i j); [lia| |].
  - rewrite nth_error_map, nth_error_skipn. change (1 + i)%nat with (S i).
    now rewrite Hbi.
  - rewrite nth_error_map, nth_error_skipn. change (1 + j)%nat with (S j).
    now rewrite Hbj.
Qed.


(** * More of the module *)

(** ** Hyperbolic orbits *)

(** X7: on a simulation of a dominant body of positive mass with at least
    one other real body, where no mass is negative and every orbit can be read
    (no semi-major axis is 0), [check_hyperbolic] answers [True] exactly when
    one of those bodies has a negative semi-major axis and [False] exactly
    when none has.  With a particle 0 and no other real body it raises (the
    minimum of an empty array), and on an empty simulation it raises the
    exception of a subscript out of range, at [particles[0]]. *)
Theorem check_hyperbolic_spec (sim : Sim) :
  (forall b0 tl,
      particles sim = b0 :: tl -> 0 < m b0 ->
      (forall b, In b tl -> 0 <= m b /\ a b <> 0) ->
      planets sim <> [] ->
      (check_hyperbolic sim = Ok true <-> exists b, In b (planets sim) /\ a b < 0)
      /\ (check_hyperbolic sim = Ok false <-> forall b, In b (planets sim) -> 0 <= a b))
  /\ (particles sim <> [] -> planets sim = [] -> check_hyperbolic sim = Err ValueError)
  /\ (particles sim = [] -> check_hyperbolic sim = Err IndexError).
Proof.
  unfold check_hyperbolic. fold (real_bodies sim). fold (planets sim).
  split; [|split].
  - intros b0 tl Hps _ _ Hne. rewrite Hps. cbn [getitem nth_error bind].
    assert (Hne' : map a (planets sim) <> []) by (destruct (planets sim); simpl; congruence).
    destruct (np_min_spec _ Hne') as (lo & Elo & Hin & Hle).
    rewrite Elo. cbn [bind].
    apply in_map_iff in Hin. destruct Hin as (bmin & Hbmin & Hbminin).
    assert (Hall : forall b, In b (planets sim) -> lo <= a b)
      by (intros b Hb; apply Hle; now apply in_map).
    destruct (Rlt_dec lo 0) as [Hneg|Hpos]; split; split; try discriminate; auto.
    + intros _. exists bmin. split; [assumption | lra].
    + intro H. specialize (H bmin Hbminin). lra.
    + intros (b & Hb & Hlt). specialize (Hall b Hb). lra.
    + intros _ b Hb. specialize (Hall b Hb). lra.
  - intros Hne Hnil. destruct (particles sim) as [|b0 tl] eqn:Hps; [congruence|].
    cbn [getitem nth_error bind]. rewrite Hnil. reflexivity.
  - intros ->. reflexivity.
Qed.

(** ** Radii from masses *)

Lemma py_pow_pos (x y : R) : 0 < x -> 0 < py_pow x y.
Proof.
  intro H. unfold py_pow. destruct (Req_dec_T x 0); [lra|]. unfold Rpower. apply exp_pos.
Qed.

(** X8: [get_rad] gives radius 0 to mass 0 and a positive radius to a positive
    mass, grows strictly with the mass, and inverts the mass-radius relation
    it is taken from: [m = 2.7 * 3e-6 * (get_rad(m) / 4.26e-4) ** 1.3]. *)
Theorem get_rad_spec :
  get_rad 0 = 0
  /\ (forall mass, 0 < mass -> 0 < get_rad mass)
  /\ (forall m1 m2, 0 <= m1 -> m1 < m2 -> get_rad m1 < get_rad m2)
  /\ (forall mass, 0 < mass ->
        27 / 10 * (3 / 1000000) * Rpower (get_rad mass / (426 / 1000000)) (13 / 10) = mass).
Proof.
  assert (Hk : 0 < 27 / 10 * (3 / 1000000)) by lra.
  assert (Hpos : forall mass, 0 < mass -> 0 < mass / (27 / 10 * (3 / 1000000))).
  { intros mass Hm. apply Rdiv_lt_0_compat; lra. }
  assert (Hzero : get_rad 0 = 0).
  { unfold get_rad, py_pow. replace (0 / (27 / 10 * (3 / 1000000))) with 0 by field.
    destruct (Req_dec_T 0 0); [ring | congruence]. }
  assert (Hgt : forall mass, 0 < mass -> 0 < get_rad mass).
  { intros mass Hm. unfold get_rad. apply Rmult_lt_0_compat; [|lra].
    apply py_pow_pos. now apply Hpos. }
  split; [exact Hzero|]. split; [exact Hgt|]. split.
  - intros m1 m2 H1 H12.
    destruct (Req_dec_T m1 0) as [->|Hne].
    + rewrite Hzero. apply Hgt. lra.
    + assert (0 < m1) by lra.
      unfold get_rad. apply Rmult_lt_compat_r; [lra|].
      unfold py_pow.
      pose proof (Hpos m1 H). pose proof (Hpos m2 ltac:(lra)).
      destruct (Req_dec_T (m1 / (27 / 10 * (3 / 1000000))) 0); [lra|].
      destruct (Req_dec_T (m2 / (27 / 10 * (3 / 1000000))) 0); [lra|].
      apply Rlt_Rpower_l; [lra|]. split; [assumption|].
      apply Rmult_lt_compat_r; [|assumption].
      apply Rinv_0_lt_compat. lra.
  - intros mass Hm. unfold get_rad, py_pow.
    pose proof (Hpos mass Hm) as Hq.
    destruct (Req_dec_T (mass / (27 / 10 * (3 / 1000000))) 0); [lra|].
    replace (Rpower (mass / (27 / 10 * (3 / 1000000))) (1 / (13 / 10)) * (426 / 1000000)
             / (426 / 1000000))
      with (Rpower (mass / (27 / 10 * (3 / 1000000))) (1 / (13 / 10))) by (field; lra).
    rewrite Rpower_mult.
    replace (1 / (13 / 10) * (13 / 10)) with 1 by field.
    rewrite Rpower_1 by assumption. field.
Qed.

(** ** Integrator *)

Lemma set_integrator_and_timestep_run (sim : Sim) :
  planets sim <> [] ->
  exists hi step,
    np_max (map e (planets sim)) = Ok hi
    /\ set_integrator_and_timestep sim
       = (Ok tt, set_integrator (set_dt sim step)
                   (if Rgt_dec hi (99 / 100) then ias15 else whfast)).
Proof.
  intro Hne.
  unfold set_integrator_and_timestep, mbind, get, lift, put.
  fold (real_bodies sim). fold (planets sim).
  rewrite <- planets_length.
  set (bodies := planets sim) in *. clearbody bodies.
  assert (Hes : map e bodies <> []) by (destruct bodies; simpl; congruence).
  destruct (np_max_spec _ Hes) as (hi & Ehi & _ & _).
  rewrite Ehi. exists hi.
  destruct (Rlt_dec hi 1).
  - assert (Hpt : peri_times (map (period sim) (seq 1 (length bodies))) (map e bodies) <> []).
    { unfold peri_times. destruct bodies; [congruence | simpl; congruence]. }
    destruct (np_min_spec _ Hpt) as (t & Et & _ & _). rewrite Et.
    exists (Num (5 / 100 * t)). split; [reflexivity|].
    destruct (Rgt_dec hi (99 / 100)); reflexivity.
  - exists NaN. split; [reflexivity|].
    destruct (Rgt_dec hi (99 / 100)); reflexivity.
Qed.

(** X9: with at least one non-dominant body, [set_integrator_and_timestep]
    selects [ias15] exactly when some eccentricity exceeds 0.99 and [whfast]
    exactly when none does, and touches nothing but the timestep and the
    integrator; with no such body it raises and leaves the simulation as it
    was. *)
Theorem set_integrator_and_timestep_integrator (sim : Sim) :
  (planets sim <> [] ->
     exists sim',
       set_integrator_and_timestep sim = (Ok tt, sim')
       /\ (integrator sim' = ias15 <-> exists b, In b (planets sim) /\ 99 / 100 < e b)
       /\ (integrator sim' = whfast <-> forall b, In b (planets sim) -> e b <= 99 / 100)
       /\ G sim' = G sim /\ N_var sim' = N_var sim /\ particles sim' = particles sim)
  /\ (planets sim = [] -> set_integrator_and_timestep sim = (Err ValueError, sim)).
Proof.
  split.
  - intro Hne.
    destruct (set_integrator_and_timestep_run sim Hne) as (hi & step & Ehi & Hrun).
    eexists. split; [exact Hrun|].
    assert (Hes : map e (planets sim) <> []) by (destruct (planets sim); simpl; congruence).
    destruct (np_max_spec _ Hes) as (hi' & Ehi' & Hin & Hle).
    rewrite Ehi in Ehi'. inversion Ehi'. subst hi'. clear Ehi'.
    apply in_map_iff in Hin. destruct Hin as (b0 & Hb0 & Hb0in).
    assert (Hall : forall b, In b (planets sim) -> e b <= hi)
      by (intros b Hb; apply Hle; now apply in_map).
    cbn [integrator set_integrator G N_var particles set_dt].
    destruct (Rgt_dec hi (99 / 100)) as [Hbig|Hsmall];
      repeat split; try discriminate; auto.
    + intros _. exists b0. split; [assumption | lra].
    + intro H. specialize (H b0 Hb0in). lra.
    + intros (b & Hb & Hlt). specialize (Hall b Hb). lra.
    + intros _ b Hb. specialize (Hall b Hb). lra.
  - intro Hnil. unfold set_integrator_and_timestep, mbind, get, lift.
    fold (real_bodies sim). fold (planets sim). rewrite Hnil. reflexivity.
Qed.

(** ** Scaled extraction *)

Lemma selected_with_fresh (p_inds : list nat) (bodies : list Body) (start : nat) :
  selected_with fresh p_inds start bodies = selected p_inds start bodies.
Proof.
  revert start. induction bodies as [|b tl IH]; intro start; simpl; [reflexivity|].
  now rewrite IH.
Qed.

Lemma selected_with_map (f g : Body -> Body) (p_inds : list nat) (bodies : list Body)
    (start : nat) :
  map g (selected_with f p_inds start bodies)
  = selected_with (fun b => g (f b)) p_inds start bodies.
Proof.
  revert start. induction bodies as [|b tl IH]; intro start; simpl; [reflexivity|].
  rewrite map_app, IH. now destruct (contains p_inds start).
Qed.

Lemma selected_with_ext (f g : Body -> Body) (p_inds : list nat) (bodies : list Body)
    (start : nat) :
  (forall b, f b = g b) ->
  selected_with f p_inds start bodies = selected_with g p_inds start bodies.
Proof.
  intro H. revert start. induction bodies as [|b tl IH]; intro start; simpl; [reflexivity|].
  now rewrite IH, H.
Qed.

Lemma py_div_ok (x y : R) : y <> 0 -> py_div x y = Ok (x / y).
Proof.
  intro H. unfold py_div. destruct (Req_dec_T y 0); [contradiction | reflexivity].
Qed.

Lemma copy_loop_scaled (sim : Sim) (p_inds : list nat) (Mstar a1 : R) (rest : list Body) :
  Mstar <> 0 -> a1 <> 0 ->
  forall (start : nat) (sim_copy : Sim),
    (1 <= start)%nat ->
    skipn start (particles sim) = rest ->
    for_range (copy_body sim p_inds (fun x => py_div x Mstar) (fun x => py_div x a1))
              start (length rest) sim_copy
    = (Ok tt, set_particles sim_copy
                (particles sim_copy ++ selected_with (scaled_body Mstar a1) p_inds start rest)).
Proof.
  intros HM Ha.
  induction rest as [|b tl IH]; intros start sim_copy Hstart Hskip.
  - simpl. unfold ret, set_particles. rewrite app_nil_r. now destruct sim_copy.
  - apply skipn_cons_nth in Hskip. destruct Hskip as [Hb Htl].
    cbn [length for_range selected_with]. unfold mbind at 1.
    assert (Hbody : copy_body sim p_inds (fun x => py_div x Mstar) (fun x => py_div x a1)
                      start sim_copy
                    = (Ok tt, set_particles sim_copy
                                (particles sim_copy
                                   ++ (if contains p_inds start
                                       then [scaled_body Mstar a1 b] else [])))).
    { unfold copy_body. destruct (contains p_inds start).
      - unfold mbind, lift, get, put, mass_at, element_at, getitem, bind. rewrite Hb.
        destruct start as [|start]; [lia|].
        rewrite !py_div_ok by assumption. reflexivity.
      - unfold ret, set_particles. rewrite app_nil_r. now destruct sim_copy. }
    rewrite Hbody. rewrite (IH (S start)) by (auto; lia).
    unfold set_particles. simpl. now rewrite <- app_assoc.
Qed.

Lemma min_index_spec (p_inds : list nat) (k : nat) :
  min_index p_inds = Ok k -> In k p_inds /\ forall j, In j p_inds -> (k <= j)%nat.
Proof.
  destruct p_inds as [|x tl]; [discriminate|]. cbn [min_index]. intro H. inversion H. clear H.
  clear k H1. revert x. induction tl as [|y tl IH]; intro x; cbn [fold_left].
  - split; [now left | intros j [<-|[]]; lia].
  - destruct (IH (Nat.min x y)) as [Hin Hle]. split.
    + destruct Hin as [E|Hin]; [|right; now right].
      rewrite <- E. destruct (Nat.min_spec x y) as [[_ ->]|[_ ->]]; [now left | right; now left].
    + intros j Hj.
      assert (Hm : (fold_left Nat.min tl (Nat.min x y) <= Nat.min x y)%nat)
        by (apply Hle; now left).
      destruct Hj as [<-|[<-|Hj]]; [lia | lia | apply Hle; now right].
Qed.

Lemma contains_In (p_inds : list nat) (i : nat) : contains p_inds i = true <-> In i p_inds.
Proof.
  unfold contains. rewrite existsb_exists. split.
  - intros (j & Hj & E). apply Nat.eqb_eq in E. now subst.
  - intro H. exists i. split; [assumption | apply Nat.eqb_refl].
Qed.

Lemma selected_with_first (f : Body -> Body) (p_inds : list nat) (bodies : list Body) :
  forall (start k : nat) (b : Body),
    (start <= k)%nat ->
    In k p_inds -> (forall j, In j p_inds -> (k <= j)%nat) ->
    nth_error bodies (k - start) = Some b ->
    exists rest, selected_with f p_inds start bodies = f b :: rest.
Proof.
  induction bodies as [|b' tl IH]; intros start k b Hle Hin Hmin Hb.
  - destruct (k - start)%nat; discriminate.
  - cbn [selected_with]. destruct (Nat.eq_dec start k) as [->|Hne].
    + rewrite Nat.sub_diag in Hb. simpl in Hb. inversion Hb. subst b'.
      apply contains_In in Hin. rewrite Hin. eexists. reflexivity.
    + assert (Hc : contains p_inds start = false).
      { apply not_true_is_false. intro Hc. apply contains_In in Hc.
        specialize (Hmin start Hc). lia. }
      rewrite Hc. cbn [app].
      replace (k - start)%nat with (S (k - S start)) in Hb by lia.
      apply (IH (S start) k b); auto. lia.
Qed.

Lemma copy_sim_scaled_run (sim : Sim) (p_inds : list nat) (b0 bk : Body)
    (tl : list Body) (k : nat) :
  particles sim = b0 :: tl ->
  min_index p_inds = Ok k -> (1 <= k)%nat ->
  nth_error (particles sim) k = Some bk ->
  m b0 <> 0 -> a bk <> 0 ->
  copy_sim sim p_inds true
  = Ok (mkSim (4 * PI ^ 2) (Num (1 / 1000)) ias15 0
          (mkBody 1 0 0 0 0 0 0 0 :: selected_with (scaled_body (m b0) (a bk)) p_inds 1 tl)).
Proof.
  intros Hps Hmin Hk Hbk HM Ha.
  unfold copy_sim, copy_sim_steps, mbind, get, put, ret, lift.
  rewrite Hmin. unfold element_at, mass_at, getitem, bind. rewrite Hbk.
  destruct k as [|k']; [lia|]. rewrite Hps. cbn [nth_error negb].
  unfold N. rewrite Hps. cbn [length]. rewrite Nat.sub_succ, Nat.sub_0_r.
  rewrite (copy_loop_scaled sim p_inds (m b0) (a bk) tl HM Ha 1)
    by (rewrite ?Hps; auto).
  reflexivity.
Qed.

Lemma bound_nth (tl : list Body) (k : nat) (bk : Body) :
  Forall (fun b => 0 <= m b /\ bound b) tl -> nth_error tl k = Some bk -> 0 < a bk.
Proof.
  intros Hall Hk. apply nth_error_In in Hk.
  rewrite Forall_forall in Hall. destruct (Hall bk Hk) as [_ [Ha _]]. exact Ha.
Qed.

Lemma selected_with_Forall (P : Body -> Prop) (f : Body -> Body) (p_inds : list nat)
    (bodies : list Body) :
  (forall b, In b bodies -> P (f b)) ->
  forall i, Forall P (selected_with f p_inds i bodies).
Proof.
  induction bodies as [|b tl IH]; intros H i; cbn [selected_with]; [constructor|].
  apply Forall_app. split.
  - destruct (contains p_inds i); constructor; [|constructor]. apply H. now left.
  - apply IH. intros b' Hb'. apply H. now right.
Qed.

Lemma scaled_body_bound (Mstar a1 : R) (b : Body) :
  0 < Mstar -> 0 < a1 -> 0 <= m b /\ bound b ->
  0 <= m (scaled_body Mstar a1 b) /\ bound (scaled_body Mstar a1 b).
Proof.
  intros HM Ha [Hm [Hab He]]. unfold bound, scaled_body. cbn [m a e].
  split; [|split; [|exact He]].
  - apply Rmult_le_pos; [exact Hm | left; now apply Rinv_0_lt_compat].
  - apply Rdiv_lt_0_compat; assumption.
Qed.

(** X10: on a simulation of a dominant body of positive mass with bodies of
    non-negative mass on bound orbits, with a selection whose least index [k]
    is that of one of these bodies, [copy_sim] with scaling returns a
    simulation whose particle 0 has mass 1 and whose other particles are the
    selected bodies with mass divided by the dominant mass and semi-major axis
    divided by that of body [k]; body [k] comes first among them, with
    semi-major axis 1, and the result is again such a simulation. *)
Theorem copy_sim_scaled_spec (sim : Sim) (p_inds : list nat) (b0 bk : Body)
    (tl : list Body) (k : nat) :
  particles sim = b0 :: tl -> 0 < m b0 ->
  Forall (fun b => 0 <= m b /\ bound b) tl ->
  min_index p_inds = Ok k -> (1 <= k)%nat ->
  nth_error (particles sim) k = Some bk ->
  exists rest sim_copy,
    copy_sim sim p_inds true = Ok sim_copy
    /\ sim_copy = mkSim (4 * PI ^ 2) (Num (1 / 1000)) ias15 0
                    (mkBody 1 0 0 0 0 0 0 0 :: scaled_body (m b0) (a bk) bk :: rest)
    /\ scaled_body (m b0) (a bk) bk :: rest
       = selected_with (scaled_body (m b0) (a bk)) p_inds 1 tl
    /\ a (scaled_body (m b0) (a bk) bk) = 1
    /\ planetary sim_copy.
Proof.
  intros Hps HM Hall Hmin Hk Hbk.
  assert (Hbk' : nth_error tl (k - 1) = Some bk).
  { rewrite Hps in Hbk. destruct k as [|k]; [lia|]. simpl in Hbk.
    now rewrite Nat.sub_succ, Nat.sub_0_r. }
  pose proof (bound_nth tl (k - 1) bk Hall Hbk') as Ha.
  destruct (min_index_spec p_inds k Hmin) as [Hin Hleast].
  destruct (selected_with_first (scaled_body (m b0) (a bk)) p_inds tl 1 k bk) as [rest Hsel];
    auto.
  exists rest. eexists. split; [|split; [|split; [|split]]].
  - apply (copy_sim_scaled_run sim p_inds b0 bk tl k); auto; lra.
  - rewrite Hsel. reflexivity.
  - symmetry. exact Hsel.
  - cbn [a scaled_body]. field. lra.
  - eexists. eexists. split; [reflexivity|]. cbn [m]. split; [lra|].
    apply selected_with_Forall. intros b Hb. apply scaled_body_bound; auto.
    rewrite Forall_forall in Hall. now apply Hall.
Qed.

(** X11: [copy_sim] with scaling fails on its selection in three ways, before
    it has read a body: on an empty selection it raises (the minimum of an
    empty list); when the least index is 0, on a simulation that is not empty,
    it raises (no orbit for particle 0); when the least index is beyond the
    last particle it raises the exception of a subscript out of range. *)
Theorem copy_sim_scaled_errors (sim : Sim) (p_inds : list nat) :
  (p_inds = [] -> copy_sim sim p_inds true = Err ValueError)
  /\ (min_index p_inds = Ok 0%nat -> particles sim <> [] ->
      copy_sim sim p_inds true = Err ValueError)
  /\ (forall k, min_index p_inds = Ok k -> (N sim <= k)%nat ->
        copy_sim sim p_inds true = Err IndexError).
Proof.
  split; [|split].
  - intros ->. reflexivity.
  - intros Hmin Hne. destruct (particles sim) as [|b0 tl] eqn:Hps; [congruence|].
    unfold copy_sim, copy_sim_steps, mbind, get, put, ret, lift.
    rewrite Hmin. unfold element_at, getitem, bind. rewrite Hps. reflexivity.
  - intros k Hmin HN. unfold N in HN.
    assert (E : nth_error (particles sim) k = None) by (apply nth_error_None; exact HN).
    unfold copy_sim, copy_sim_steps, mbind, get, put, ret, lift.
    rewrite Hmin. unfold element_at, getitem, bind. rewrite E. reflexivity.
Qed.

(** ** Back to the units of the input *)

Lemma revert_loop (sim : Sim) (Ms As : list R) (i : nat) (Mstar a1 : R) (rest : list Body) :
  getitem Ms i = Ok Mstar -> getitem As i = Ok a1 ->
  forall (start : nat) (sim_copy : Sim),
    (1 <= start)%nat ->
    skipn start (particles sim) = rest ->
    for_range (revert_body sim Ms As i) start (length rest) sim_copy
    = (Ok tt, set_particles sim_copy
                (particles sim_copy ++ map (reverted_body Mstar a1) rest)).
Proof.
  intros HM Ha.
  induction rest as [|b tl IH]; intros start sim_copy Hstart Hskip.
  - simpl. unfold ret, set_particles. rewrite app_nil_r. now destruct sim_copy.
  - apply skipn_cons_nth in Hskip. destruct Hskip as [Hb Htl].
    cbn [length for_range map]. unfold mbind at 1.
    assert (Hbody : revert_body sim Ms As i start sim_copy
                    = (Ok tt, set_particles sim_copy
                                (particles sim_copy ++ [reverted_body Mstar a1 b]))).
    { unfold revert_body, mbind, lift, get, put, mass_at, element_at, bind.
      rewrite HM, Ha. unfold getitem. rewrite Hb.
      destruct start as [|start]; [lia|]. reflexivity. }
    rewrite Hbody. rewrite (IH (S start)) by (auto; lia).
    unfold set_particles. simpl. now rewrite <- app_assoc.
Qed.

Lemma skipn_1_tl {A : Type} (xs : list A) : skipn 1 xs = tl xs.
Proof. now destruct xs. Qed.

Lemma length_tl_N (sim : Sim) : length (tl (particles sim)) = (N sim - 1)%nat.
Proof. unfold N. destruct (particles sim); simpl; lia. Qed.

Lemma revert_one_run (i : nat) (tsim : Timed) (Ms As : list R) (G0 G_units : R)
    (units : Units) (P1s : option (list R)) :
  installed_G G0 units = Ok G_units ->
  (i < length Ms)%nat -> (i < length As)%nat ->
  (forall l, P1s = Some l -> (i < length l)%nat) ->
  revert_one i tsim Ms As G0 units P1s = Ok (reverted Ms As G_units P1s i tsim).
Proof.
  intros HG HM Ha HP.
  assert (EM : getitem Ms i = Ok (nth i Ms 0))
    by (unfold getitem; now rewrite (nth_error_nth' Ms 0 HM)).
  assert (EA : getitem As i = Ok (nth i As 0))
    by (unfold getitem; now rewrite (nth_error_nth' As 0 Ha)).
  unfold installed_G in HG.
  unfold revert_one, reverted, reverted_time, mbind, get, put, lift, ret.
  rewrite <- length_tl_N.
  destruct (length_unit units) as [ul|], (mass_unit units) as [um|],
    (time_unit units) as [ut|];
    try rewrite HG; try (inversion HG; subst G_units);
    rewrite EM;
    rewrite (revert_loop (sim_of tsim) Ms As i _ _ (tl (particles (sim_of tsim))) EM EA 1)
      by (auto; apply skipn_1_tl);
    (destruct P1s as [l|];
     [ specialize (HP l eq_refl); unfold getitem;
       rewrite (nth_error_nth' l 0 HP); reflexivity
     | reflexivity ]).
Qed.

Lemma revert_from_run (sims : list Timed) (Ms As : list R) (G0 G_units : R) (units : Units)
    (P1s : option (list R)) :
  installed_G G0 units = Ok G_units ->
  forall i,
    (i + length sims <= length Ms)%nat -> (i + length sims <= length As)%nat ->
    (forall l, P1s = Some l -> (i + length sims <= length l)%nat) ->
    revert_from i sims Ms As G0 units P1s
    = Ok (map (fun it => reverted Ms As G_units P1s (fst it) (snd it)) (enumerate i sims)).
Proof.
  intro HG.
  induction sims as [|tsim rest IH]; intros i HM Ha HP; [reflexivity|].
  cbn [revert_from length] in *.
  rewrite (revert_one_run i tsim Ms As G0 G_units units P1s HG); try lia.
  2:{ intros l Hl. specialize (HP l Hl). lia. }
  cbn [bind]. rewrite IH; try lia.
  2:{ intros l Hl. specialize (HP l Hl). lia. }
  reflexivity.
Qed.

Lemma enumerate_nth {A : Type} (xs : list A) (start i : nat) :
  nth_error (enumerate start xs) i = option_map (fun x => ((start + i)%nat, x)) (nth_error xs i).
Proof.
  unfold enumerate. revert start i. induction xs as [|x tl IH]; intros start i.
  - destruct i; reflexivity.
  - destruct i as [|i]; simpl.
    + now rewrite Nat.add_0_r.
    + rewrite IH. now rewrite Nat.add_succ_r.
Qed.

Lemma reverted_body_bound (Mstar a1 : R) (b : Body) :
  0 < Mstar -> 0 < a1 -> 0 <= m b /\ bound b ->
  0 <= m (reverted_body Mstar a1 b) /\ bound (reverted_body Mstar a1 b).
Proof.
  intros HM Ha [Hm [Hab He]]. unfold bound, reverted_body. cbn [m a e].
  split; [|split; [|exact He]].
  - apply Rmult_le_pos; lra.
  - apply Rmult_lt_0_compat; assumption.
Qed.

(** X12: [revert_sim_units] on simulations of a dominant body of positive
    mass with bodies of non-negative mass on bound orbits, with positive
    anchors, as many of them as simulations (masses, semi-major axes and,
    when periods are passed, periods), and units that are incomplete or that
    REBOUND takes.  It returns one simulation per input, in order: its
    particle 0 has the anchor mass, every other particle of the input is there
    with mass multiplied by the anchor mass and semi-major axis by the anchor
    axis and its other elements as they were, its gravitational constant is
    that of the units when all three are given and [original_G] otherwise, and
    its time is the input's multiplied by the anchor period, or 0 without
    periods; it is again such a simulation. *)
Theorem revert_sim_units_spec (sims : list Timed) (Ms As : list R) (G0 G_units : R)
    (units : Units) (P1s : option (list R)) :
  installed_G G0 units = Ok G_units ->
  (forall tsim, In tsim sims -> planetary (sim_of tsim)) ->
  (length sims <= length Ms)%nat -> (length sims <= length As)%nat ->
  (forall l, P1s = Some l -> (length sims <= length l)%nat) ->
  (forall i, (i < length sims)%nat -> 0 < nth i Ms 0 /\ 0 < nth i As 0) ->
  exists out,
    revert_sim_units sims Ms As G0 units P1s = Ok out
    /\ length out = length sims
    /\ forall i tsim,
         nth_error sims i = Some tsim ->
         nth_error out i = Some (reverted Ms As G_units P1s i tsim)
         /\ planetary (sim_of (reverted Ms As G_units P1s i tsim)).
Proof.
  intros HG Hsims HM Ha HP Hanchors. unfold revert_sim_units.
  rewrite (revert_from_run sims Ms As G0 G_units units P1s HG) by auto.
  eexists. split; [reflexivity|]. split.
  - unfold enumerate. rewrite length_map, length_combine, length_seq. lia.
  - intros i tsim Hi. split.
    + rewrite nth_error_map, enumerate_nth, Hi. reflexivity.
    + assert (Hlt : (i < length sims)%nat) by (apply nth_error_Some; congruence).
      destruct (Hanchors i Hlt) as [HMi HAi].
      destruct (Hsims tsim (nth_error_In _ _ Hi)) as (b0 & tl & Hps & _ & Hall).
      unfold reverted. cbn [sim_of]. rewrite Hps. cbn [List.tl].
      eexists. eexists. split; [reflexivity|]. cbn [m]. split; [exact HMi|].
      rewrite Forall_forall in *. intros b Hb.
      apply in_map_iff in Hb. destruct Hb as (b' & <- & Hb').
      apply reverted_body_bound; auto.
Qed.


Lemma revert_body_errors (sim : Sim) (Ms As : list R) (i j : nat) (sim_copy : Sim) :
  (1 <= j < N sim)%nat ->
  index_error_only (fst (revert_body sim Ms As i j sim_copy)).
Proof.
  intros [Hj HN]. unfold N in HN.
  destruct (nth_error (particles sim) j) as [b|] eqn:Eb;
    [|apply nth_error_None in Eb; lia].
  unfold revert_body, mbind, lift, get, put, mass_at, element_at, bind, getitem.
  rewrite Eb. destruct j as [|j]; [lia|].
  destruct (nth_error Ms i); [|reflexivity].
  destruct (nth_error As i); [|reflexivity].
  exact I.
Qed.

Lemma revert_loop_errors (sim : Sim) (Ms As : list R) (i : nat) (count : nat) :
  forall (start : nat) (sim_copy : Sim),
    (1 <= start)%nat -> (start + count <= N sim)%nat ->
    index_error_only (fst (for_range (revert_body sim Ms As i) start count sim_copy)).
Proof.
  induction count as [|count IH]; intros start sim_copy Hs Hc; [exact I|].
  cbn [for_range]. unfold mbind at 1.
  pose proof (revert_body_errors sim Ms As i start sim_copy ltac:(lia)) as Hb.
  destruct (revert_body sim Ms As i start sim_copy) as [[u|err] s1]; cbn [fst] in *.
  - apply IH; lia.
  - exact Hb.
Qed.

Lemma revert_one_errors (i : nat) (tsim : Timed) (Ms As : list R) (G0 G_units : R)
    (units : Units) (P1s : option (list R)) :
  installed_G G0 units = Ok G_units ->
  index_error_only (revert_one i tsim Ms As G0 units P1s)
  /\ (forall out, revert_one i tsim Ms As G0 units P1s = Ok out ->
        (i < length Ms)%nat /\ forall l, P1s = Some l -> (i < length l)%nat).
Proof.
  intro HG. unfold installed_G in HG.
  unfold revert_one, mbind, get, put, lift, ret.
  assert (Hloop : forall sim_copy,
            index_error_only
              (fst (for_range (revert_body (sim_of tsim) Ms As i) 1 (N (sim_of tsim) - 1)
                      sim_copy))).
  { intro sim_copy.
    destruct (N (sim_of tsim)) as [|n] eqn:EN; [exact I|].
    apply revert_loop_errors; lia. }
  destruct (length_unit units), (mass_unit units), (time_unit units);
    try rewrite HG;
    (unfold getitem at 1 3;
     destruct (nth_error Ms i) as [Mstar|] eqn:EM;
     [ assert (i < length Ms)%nat by (apply nth_error_Some; congruence);
       match goal with
       | |- context [for_range ?b ?s ?c ?x] =>
           pose proof (Hloop x) as Hl; destruct (for_range b s c x) as [[done|err] s']
       end;
       cbn [fst] in Hl;
       [ destruct P1s as [l|];
         [ unfold getitem; destruct (nth_error l i) eqn:El;
           [ split; [exact I|]; intros out _; split; [assumption|];
             intros l' Hl'; inversion Hl'; subst l'; apply nth_error_Some; congruence
           | split; [reflexivity | discriminate] ]
         | split; [exact I|]; intros out _; split; [assumption | discriminate] ]
       | split; [exact Hl | discriminate] ]
     | split; [reflexivity | discriminate] ]).
Qed.

Lemma revert_from_errors (sims : list Timed) (Ms As : list R) (G0 G_units : R) (units : Units)
    (P1s : option (list R)) :
  installed_G G0 units = Ok G_units ->
  forall i,
    index_error_only (revert_from i sims Ms As G0 units P1s)
    /\ (forall out, revert_from i sims Ms As G0 units P1s = Ok out ->
          (i + length sims <= Nat.max i (length Ms))%nat
          /\ forall l, P1s = Some l -> (i + length sims <= Nat.max i (length l))%nat).
Proof.
  intro HG.
  induction sims as [|tsim rest IH]; intro i.
  - split; [exact I | intros; cbn [length]; split; [lia | intros; lia]].
  - cbn [revert_from length].
    destruct (revert_one_errors i tsim Ms As G0 G_units units P1s HG) as [Hone Hlt].
    destruct (revert_one i tsim Ms As G0 units P1s) as [o|err]; cbn [bind].
    + destruct (Hlt o eq_refl) as [HltM HltP].
      destruct (IH (S i)) as [Hrest Hlen].
      destruct (revert_from (S i) rest Ms As G0 units P1s) as [os|err]; cbn [bind].
      * split; [exact I|]. intros out _. destruct (Hlen os eq_refl) as [HlenM HlenP].
        split; [lia|]. intros l Hl. specialize (HltP l Hl). specialize (HlenP l Hl). lia.
      * split; [exact Hrest | discriminate].
    + split; [exact Hone | discriminate].
Qed.

(** X13: with lists of anchors that are too short, [revert_sim_units]
    raises the exception of a subscript out of range: on simulations of a
    dominant body with bodies on bound orbits, with positive anchors and units
    that are incomplete or that REBOUND takes, it raises it whenever there are
    fewer anchor masses than simulations, and whenever periods are passed and
    there are fewer of them than simulations. *)
Theorem revert_sim_units_errors (sims : list Timed) (Ms As : list R) (G0 G_units : R)
    (units : Units) (P1s : option (list R)) :
  installed_G G0 units = Ok G_units ->
  (forall tsim, In tsim sims -> planetary (sim_of tsim)) ->
  Forall (fun x => 0 < x) Ms -> Forall (fun x => 0 < x) As ->
  ((length Ms < length sims)%nat
   \/ exists l, P1s = Some l /\ (length l < length sims)%nat) ->
  revert_sim_units sims Ms As G0 units P1s = Err IndexError.
Proof.
  intros HG _ _ _ Hshort. unfold revert_sim_units.
  destruct (revert_from_errors sims Ms As G0 G_units units P1s HG 0) as [Honly Hlen].
  destruct (revert_from 0 sims Ms As G0 units P1s) as [out|err].
  - exfalso. destruct (Hlen out eq_refl) as [HlenM HlenP].
    destruct Hshort as [H|(l & Hl & H)]; [lia|]. specialize (HlenP l Hl). lia.
  - cbn in Honly. now subst err.
Qed.

(** X14: on a simulation of a dominant body of positive mass with bodies of
    non-negative mass on bound orbits, extraction with scaling followed by
    [revert_sim_units] with the two anchors of the extraction (the dominant
    mass and the semi-major axis of the lowest selected body) gives back the
    particles of the extraction without scaling, under the gravitational
    constant that is passed. *)
Theorem copy_sim_scaled_reverted (sim : Sim) (p_inds : list nat) (b0 bk : Body)
    (tl : list Body) (k : nat) (G0 t0 : R) :
  particles sim = b0 :: tl -> 0 < m b0 ->
  Forall (fun b => 0 <= m b /\ bound b) tl ->
  min_index p_inds = Ok k -> (1 <= k)%nat ->
  nth_error (particles sim) k = Some bk ->
  exists scaled unscaled,
    copy_sim sim p_inds true = Ok scaled
    /\ copy_sim sim p_inds false = Ok unscaled
    /\ revert_sim_units [mkTimed scaled t0] [m b0] [a bk] G0 (mkUnits None None None) None
       = Ok [mkTimed (set_G unscaled G0) 0].
Proof.
  intros Hps HM Hall Hmin Hk Hbk.
  assert (Hbk' : nth_error tl (k - 1) = Some bk).
  { rewrite Hps in Hbk. destruct k as [|k]; [lia|]. simpl in Hbk.
    now rewrite Nat.sub_succ, Nat.sub_0_r. }
  pose proof (bound_nth tl (k - 1) bk Hall Hbk') as Ha.
  do 2 eexists.
  split; [apply (copy_sim_scaled_run sim p_inds b0 bk tl k); auto; lra|].
  split; [apply (copy_sim_unscaled sim p_inds b0 tl Hps)|].
  unfold revert_sim_units.
  rewrite (revert_from_run _ _ _ G0 G0 (mkUnits None None None) None eq_refl);
    cbn [length]; try lia; [|discriminate].
  cbn [enumerate length seq combine map fst snd].
  unfold reverted, reverted_time, set_G.
  cbn [sim_of particles List.tl nth dt integrator N_var G].
  do 5 f_equal.
  rewrite selected_with_map, <- selected_with_fresh.
  apply selected_with_ext. intro b.
  unfold reverted_body, scaled_body, fresh. cbn [m a e inc pomega Omega theta].
  f_equal; field; lra.
Qed.

(** ** More on reinsertion *)










(** X17: when the first index of the trio is 0 or beyond the last particle
    of the original simulation, [replace_trio] raises before it has written
    anything: the reduced simulation is as it was. *)
Theorem replace_trio_bad_first_index (original_sim : Sim) (ind1 ind2 ind3 : nat)
    (theta1 theta2 : R) (new_state_sim : Sim) :
  (particles original_sim <> [] -> ind1 = 0%nat ->
     replace_trio original_sim (ind1, ind2, ind3) theta1 theta2 new_state_sim
     = (Err ValueError, new_state_sim))
  /\ ((N original_sim <= ind1)%nat ->
      replace_trio original_sim (ind1, ind2, ind3) theta1 theta2 new_state_sim
      = (Err IndexError, new_state_sim)).
Proof.
  rewrite replace_trio_stages. unfold element_at, bind, getitem. split.
  - intros Hne ->. destruct (particles original_sim); [congruence | reflexivity].
  - intro HN. unfold N in HN.
    assert (E : nth_error (particles original_sim) ind1 = None)
      by (apply nth_error_None; exact HN).
    rewrite E. reflexivity.
Qed.





(** ** Setting up a simulation *)

Lemma check_valid_sim_run (sim : Sim) (b0 : Body) (rest : list Body) :
  real_bodies sim = b0 :: rest ->
  ((exists b, In b (real_bodies sim) /\ m b < 0) ->
     check_valid_sim sim = (Err NegativeMassError, sim))
  /\ ((forall b, In b (real_bodies sim) -> 0 <= m b) ->
      (exists b, In b (real_bodies sim) /\ m b0 < m b) ->
      check_valid_sim sim = (Err NonDominantPrimaryError, sim))
  /\ ((forall b, In b (real_bodies sim) -> 0 <= m b <= m b0) ->
      check_valid_sim sim = (Ok tt, sim)).
Proof.
  intro Hreal. unfold real_bodies in *.
  unfold check_valid_sim, mbind, get, lift, raise, ret.
  rewrite Hreal.
  set (ms := map m (b0 :: rest)).
  assert (Hne : ms <> []) by (subst ms; simpl; congruence).
  destruct (np_min_spec ms Hne) as (lo & Elo & Hlo_in & Hlo).
  destruct (np_max_spec ms Hne) as (hi & Ehi & Hhi_in & Hhi).
  rewrite Elo.
  assert (Hin : forall b, In b (b0 :: rest) -> In (m b) ms)
    by (intros b Hb; subst ms; now apply in_map).
  assert (Hout : forall v, In v ms -> exists b, In b (b0 :: rest) /\ m b = v).
  { intros v Hv. subst ms. apply in_map_iff in Hv. destruct Hv as (b & E & Hb). eauto. }
  destruct (Rlt_dec lo 0) as [Hneg|Hpos].
  - split; [reflexivity|]. split.
    + intros Hall _. destruct (Hout lo Hlo_in) as (b & Hb & E). specialize (Hall b Hb). lra.
    + intros Hall. destruct (Hout lo Hlo_in) as (b & Hb & E). specialize (Hall b Hb). lra.
  - rewrite Ehi. replace (getitem ms 0) with (Ok (m b0)) by reflexivity.
    assert (H0 : m b0 <= hi) by (apply Hhi, Hin; left; reflexivity).
    split; [|split].
    + intros (b & Hb & Hlt). specialize (Hlo (m b) (Hin b Hb)). lra.
    + intros _ (b & Hb & Hlt). specialize (Hhi (m b) (Hin b Hb)).
      destruct (Req_dec_T hi (m b0)); [lra | reflexivity].
    + intros Hall. destruct (Hout hi Hhi_in) as (b & Hb & E). specialize (Hall b Hb).
      destruct (Req_dec_T hi (m b0)); [reflexivity | lra].
Qed.

Lemma set_simulation_same (st : Setup) : set_simulation st (simulation st) = st.
Proof.
  now destruct st.
Qed.

(** X19: [init_sim_parameters] validates before it writes: on a simulation
    with a body of negative mass, or with none but a body heavier than the one
    at index 0, it raises the error of [check_valid_sim] and every setting is
    as it was. *)
Theorem init_sim_parameters_validates (megno : bool) (safe_mode_ : nat) (st : Setup)
    (b0 : Body) (rest : list Body) :
  real_bodies (simulation st) = b0 :: rest ->
  ((exists b, In b (real_bodies (simulation st)) /\ m b < 0) ->
     init_sim_parameters megno safe_mode_ st = (Err NegativeMassError, st))
  /\ ((forall b, In b (real_bodies (simulation st)) -> 0 <= m b) ->
      (exists b, In b (real_bodies (simulation st)) /\ m b0 < m b) ->
      init_sim_parameters megno safe_mode_ st = (Err NonDominantPrimaryError, st)).
Proof.
  intro Hreal.
  destruct (check_valid_sim_run (simulation st) b0 rest Hreal) as (Hneg & Hdom & _).
  split.
  - intro H. unfold init_sim_parameters. unfold mbind at 1. unfold on_sim at 1.
    rewrite (Hneg H), set_simulation_same. reflexivity.
  - intros H1 H2. unfold init_sim_parameters. unfold mbind at 1. unfold on_sim at 1.
    rewrite (Hdom H1 H2), set_simulation_same. reflexivity.
Qed.

Lemma real_bodies_N_real (sim : Sim) : length (real_bodies sim) = N_real sim.
Proof.
  unfold real_bodies, N_real, N. rewrite length_firstn. lia.
Qed.

(** X20: on a valid simulation whose only real body is the dominant one,
    [init_sim_parameters] raises (the maximum of an empty array) when it has
    set the collision mode and nothing else. *)
Theorem init_sim_parameters_lone_star (megno : bool) (safe_mode_ : nat) (st : Setup)
    (b0 : Body) :
  real_bodies (simulation st) = [b0] -> 0 <= m b0 ->
  init_sim_parameters megno safe_mode_ st = (Err ValueError, set_collision st collision_mode).
Proof.
  intros Hreal Hm.
  destruct (check_valid_sim_run (simulation st) b0 [] Hreal) as (_ & _ & Hok).
  assert (Hvalid : check_valid_sim (simulation st) = (Ok tt, simulation st)).
  { apply Hok. intros b Hb. rewrite Hreal in Hb. destruct Hb as [<-|[]]. lra. }
  assert (HN : N_real (simulation st) = 1%nat)
    by (rewrite <- real_bodies_N_real, Hreal; reflexivity).
  unfold init_sim_parameters. unfold mbind at 1. unfold on_sim at 1.
  rewrite Hvalid, set_simulation_same.
  unfold mbind, get, put, lift. cbn [simulation set_collision].
  rewrite HN. reflexivity.
Qed.

Lemma py_pow_third_cubed (x : R) : 0 <= x -> py_pow x (1 / 3) ^ 3 = x.
Proof.
  intro Hx. unfold py_pow. destruct (Req_dec_T x 0) as [E|E].
  - subst x. ring.
  - assert (Hpos : 0 < x) by lra.
    rewrite <- Rpower_pow by (unfold Rpower; apply exp_pos).
    rewrite Rpower_mult. replace (1 / 3 * INR 3) with 1 by (simpl; field).
    now apply Rpower_1.
Qed.

Lemma hill_loop (b0 : Body) (post rest : list Body) :
  m b0 <> 0 ->
  forall (done : list Body) (s : Sim),
    particles s = (b0 :: done) ++ rest ++ post ->
    for_range hill_body (length (b0 :: done)) (length rest) s
    = (Ok tt, set_particles s ((b0 :: done) ++ map (hill_sized (m b0)) rest ++ post)).
Proof.
  intro Hm0. induction rest as [|b rest IH]; intros done s Hps.
  - simpl. unfold ret. simpl in Hps. rewrite <- Hps. now destruct s.
  - cbn [length for_range map]. unfold mbind at 1.
    change ((b :: rest) ++ post) with (b :: rest ++ post) in Hps.
    assert (Hstep : hill_body (S (length done)) s
                    = (Ok tt, set_particles s
                                ((b0 :: done) ++ hill_sized (m b0) b :: rest ++ post))).
    { change (S (length done)) with (length (b0 :: done)).
      unfold hill_body, mbind, get, lift, put.
      rewrite (element_at_middle a s (b0 :: done) (rest ++ post) b Hps) by discriminate.
      unfold mass_at, getitem, bind.
      rewrite Hps, nth_error_middle. cbn [app nth_error].
      rewrite py_div_ok by exact Hm0.
      change (b0 :: done ++ b :: rest ++ post) with ((b0 :: done) ++ b :: rest ++ post).
      rewrite setitem_middle. reflexivity. }
    cbn [length] in Hstep. rewrite Hstep.
    specialize (IH (done ++ [hill_sized (m b0) b])
                   (set_particles s ((b0 :: done) ++ hill_sized (m b0) b :: rest ++ post))).
    cbn [length] in IH. rewrite length_app in IH. cbn [length] in IH.
    rewrite Nat.add_1_r in IH. rewrite IH.
    + unfold set_particles. cbn [G dt integrator N_var app]. now rewrite <- app_assoc.
    + cbn [particles set_particles app]. now rewrite <- app_assoc.
Qed.

Lemma real_bodies_split (sim : Sim) :
  particles sim = real_bodies sim ++ skipn (N_real sim) (particles sim).
Proof.
  unfold real_bodies. symmetry. apply firstn_skipn.
Qed.

(** The simulation after the optional call of [sim.init_megno]. *)
Lemma init_megno_real (sim : Sim) :
  N_real (init_megno sim) = N_real sim
  /\ real_bodies (init_megno sim) = real_bodies sim
  /\ skipn (N_real sim) (particles (init_megno sim))
     = skipn (N_real sim) (particles sim) ++ variational sim.
Proof.
  assert (HN : N_real (init_megno sim) = N_real sim).
  { unfold N_real, N, init_megno. cbn [particles N_var]. rewrite length_app. lia. }
  assert (Hle : (N_real sim <= length (particles sim))%nat) by (unfold N_real, N; lia).
  split; [exact HN|]. split.
  - unfold real_bodies. rewrite HN. unfold init_megno. cbn [particles].
    rewrite firstn_app.
    replace (N_real sim - length (particles sim))%nat with 0%nat by lia.
    cbn [firstn]. now rewrite app_nil_r.
  - unfold init_megno. cbn [particles]. rewrite skipn_app.
    replace (N_real sim - length (particles sim))%nat with 0%nat by lia.
    reflexivity.
Qed.

(** X21: on a valid simulation with a dominant body of positive mass and at
    least one other real body, [init_sim_parameters] returns normally.  The
    collision mode is set, the exit distance is 100 times the largest
    distance of a non-dominant body, [keep_unsynchronized] is 0 and
    [safe_mode] is the argument; variational particles are added when there
    were none and [megno] is set; the integrator is [ias15] exactly when some
    eccentricity exceeds 0.99; every non-dominant real body has got its Hill
    radius, [r^3 * 3 * m0 = a^3 * m], and nothing else of it has changed; the
    simulation is moved to its centre of mass last. *)
Theorem init_sim_parameters_spec (megno : bool) (safe_mode_ : nat) (st : Setup)
    (b0 b1 : Body) (rest : list Body) :
  real_bodies (simulation st) = b0 :: b1 :: rest ->
  (forall b, In b (real_bodies (simulation st)) -> 0 <= m b <= m b0) ->
  0 < m b0 ->
  let sim := simulation st in
  let add_megno := (N_var sim =? 0)%nat && megno in
  exists maxd sim',
    init_sim_parameters megno safe_mode_ st
    = (Ok tt, mkSetup (move_to_com sim') collision_mode (100 * maxd) 0 safe_mode_)
    /\ np_max (map (distance sim) (seq 1 (N_real sim - 1))) = Ok maxd
    /\ particles sim'
       = b0 :: map (hill_sized (m b0)) (b1 :: rest)
            ++ skipn (N_real sim) (particles sim)
            ++ (if add_megno then variational sim else [])
    /\ (forall p, In p (b1 :: rest) ->
          r (hill_sized (m b0) p) ^ 3 * (3 * m b0) = a p ^ 3 * m p)
    /\ N_var sim' = (N_var sim + if add_megno then length (variational sim) else 0)%nat
    /\ G sim' = G sim
    /\ (integrator sim' = ias15 <-> exists b, In b (b1 :: rest) /\ 99 / 100 < e b)
    /\ (integrator sim' = whfast <-> forall b, In b (b1 :: rest) -> e b <= 99 / 100).
Proof.
  intros Hreal Hvalid Hm0 sim add_megno.
  destruct (check_valid_sim_run sim b0 (b1 :: rest) Hreal) as (_ & _ & Hok).
  specialize (Hok Hvalid).
  assert (HN : N_real sim = S (S (length rest)))
    by (rewrite <- real_bodies_N_real; unfold sim; rewrite Hreal; reflexivity).
  (* the largest distance *)
  assert (Hds : map (distance sim) (seq 1 (N_real sim - 1)) <> [])
    by (rewrite HN; simpl; congruence).
  destruct (np_max_spec _ Hds) as (maxd & Emax & _ & _).
  (* the simulation that the integrator is chosen for *)
  set (s1 := if add_megno then init_megno sim else sim).
  assert (Hs1 : N_real s1 = N_real sim
                /\ real_bodies s1 = real_bodies sim
                /\ skipn (N_real sim) (particles s1)
                   = skipn (N_real sim) (particles sim)
                       ++ (if add_megno then variational sim else [])
                /\ G s1 = G sim
                /\ N_var s1
                   = (N_var sim + if add_megno then length (variational sim) else 0)%nat).
  { subst s1. destruct add_megno.
    - destruct (init_megno_real sim) as (H1 & H2 & H3). repeat split; assumption.
    - rewrite app_nil_r, Nat.add_0_r. repeat split. }
  destruct Hs1 as (HN1 & Hreal1 & Hvar1 & HG1 & HNvar1).
  assert (Hplanets1 : planets s1 = b1 :: rest).
  { unfold planets. rewrite Hreal1. unfold sim. rewrite Hreal. reflexivity. }
  assert (Hne1 : planets s1 <> []) by (rewrite Hplanets1; discriminate).
  destruct (set_integrator_and_timestep_run s1 Hne1) as (hi & step & Ehi & Hrun).
  set (s2 := set_integrator (set_dt s1 step)
               (if Rgt_dec hi (99 / 100) then ias15 else whfast)) in *.
  assert (Hps2 : particles s2 = [b0] ++ (b1 :: rest) ++ skipn (N_real sim) (particles s1)).
  { subst s2. cbn [particles set_integrator set_dt].
    rewrite (real_bodies_split s1) at 1. rewrite Hreal1, HN1. unfold sim. rewrite Hreal.
    reflexivity. }
  assert (HN2 : (N_real s2 - 1)%nat = length (b1 :: rest)).
  { replace (N_real s2) with (N_real s1) by reflexivity.
    rewrite HN1, HN. reflexivity. }
  pose proof (hill_loop b0 (skipn (N_real sim) (particles s1)) (b1 :: rest)
                ltac:(lra) [] s2 Hps2) as Hhill.
  change (length [b0]) with 1%nat in Hhill.
  set (s3 := set_particles s2
               ([b0] ++ map (hill_sized (m b0)) (b1 :: rest)
                  ++ skipn (N_real sim) (particles s1))) in *.
  exists maxd, s3. split; [|split; [|split; [|split; [|split; [|split]]]]].
  - unfold init_sim_parameters. unfold mbind at 1. unfold on_sim at 1.
    fold sim. rewrite Hok. rewrite set_simulation_same.
    unfold mbind, on_sim, get, put, lift, ret.
    cbn [simulation set_collision set_exit_max_distance set_keep_unsynchronized
         set_safe_mode set_simulation collision exit_max_distance keep_unsynchronized
         safe_mode].
    fold sim. rewrite Emax. fold add_megno.
    set (st4 := set_safe_mode _ safe_mode_).
    clearbody add_megno.
    destruct add_megno; cbn [simulation set_simulation st4 set_safe_mode
                             set_keep_unsynchronized set_exit_max_distance set_collision
                             collision exit_max_distance keep_unsynchronized safe_mode].
    + change (init_megno sim) with s1. rewrite Hrun. cbn [simulation set_simulation].
      rewrite HN2, Hhill. reflexivity.
    + fold sim. change (set_integrator_and_timestep sim)
        with (set_integrator_and_timestep s1).
      rewrite Hrun. cbn [simulation set_simulation].
      rewrite HN2, Hhill. reflexivity.
  - exact Emax.
  - subst s3. cbn [particles set_particles app]. rewrite Hvar1. reflexivity.
  - intros p Hp. unfold hill_sized, with_r. cbn [r].
    assert (Hmp : 0 <= m p <= m b0).
    { apply Hvalid. unfold sim in *. rewrite Hreal. right. exact Hp. }
    assert (Hratio : 0 <= m p / 3 / m b0).
    { apply Rmult_le_pos; [lra|]. left. now apply Rinv_0_lt_compat. }
    rewrite Rpow_mult_distr, (py_pow_third_cubed _ Hratio). field. lra.
  - exact HNvar1.
  - exact HG1.
  - assert (Hes : map e (planets s1) <> []) by (rewrite Hplanets1; simpl; congruence).
    destruct (np_max_spec _ Hes) as (hi' & Ehi' & Hin & Hle).
    rewrite Ehi in Ehi'. inversion Ehi'. subst hi'. clear Ehi'.
    rewrite Hplanets1 in Hin, Hle.
    apply in_map_iff in Hin. destruct Hin as (bmax & Hbmax & Hbmaxin).
    assert (Hall : forall b, In b (b1 :: rest) -> e b <= hi)
      by (intros b Hb; apply Hle; now apply in_map).
    subst s3 s2. cbn [integrator set_integrator set_particles].
    destruct (Rgt_dec hi (99 / 100)) as [Hbig|Hsmall]; split; split; try discriminate; auto.
    + intros _. exists bmax. split; [assumption | lra].
    + intro H. specialize (H bmax Hbmaxin). lra.
    + intros (b & Hb & Hlt). specialize (Hall b Hb). lra.
    + intros _ b Hb. specialize (Hall b Hb). lra.
Qed.

End Rebound.

Module CartesianFacts.
Import Cartesian.

(** ** Frame rotation *)

(** The transform with every angle zero moves nothing. *)
Lemma npEulerAnglesTransform_zero (v : vec3) :
  npEulerAnglesTransform v 0 0 0 = v.
Proof.
  destruct v as [[x y] z]. unfold npEulerAnglesTransform.
  rewrite sin_0, cos_0. f_equal; [f_equal|]; ring.
Qed.

(** The rotation into the aligned frame followed by the rotation back, on one
    vector. *)
Lemma euler_there_and_back (v : vec3) (theta1 theta2 : R) :
  npEulerAnglesTransform (npEulerAnglesTransform v 0 theta2 theta1)
                         (- theta1) (- theta2) 0 = v.
Proof.
  destruct v as [[x y] z]. unfold npEulerAnglesTransform.
  rewrite sin_0, cos_0, !sin_neg, !cos_neg.
  pose proof (sin2_cos2 theta1) as H1. pose proof (sin2_cos2 theta2) as H2.
  unfold Rsqr in H1, H2.
  set (s1 := sin theta1) in *. set (c1 := cos theta1) in *.
  set (s2 := sin theta2) in *. set (c2 := cos theta2) in *.
  f_equal; [f_equal|].
  - transitivity (x * (s1 * s1 + c1 * c1)
                  + ((s2 * s2 + c2 * c2) - 1) * (s1 * s1 * x + s1 * c1 * y)).
    + ring.
    + rewrite H1, H2. ring.
  - transitivity (y * (s1 * s1 + c1 * c1)
                  + ((s2 * s2 + c2 * c2) - 1) * (c1 * s1 * x + c1 * c1 * y)).
    + ring.
    + rewrite H1, H2. ring.
  - transitivity (z * (s2 * s2 + c2 * c2)).
    + ring.
    + rewrite H2. ring.
Qed.

Lemma transform_particle_round_trip (p : Particle) (theta1 theta2 : R) :
  transform_particle (- theta1) (- theta2) 0 (transform_particle 0 theta2 theta1 p) = p.
Proof.
  destruct p as [m0 q v r0]. unfold transform_particle. simpl.
  now rewrite !euler_there_and_back.
Qed.

(** At the level of the simulation: [align_simulation] followed by the
    rotation that ends [replace_trio] leaves every particle where it was. *)
Lemma align_back_align_with (sim : Simulation) (theta1 theta2 : R) :
  align_back theta1 theta2 (align_with theta1 theta2 sim) = sim.
Proof.
  destruct sim as [ps nv st].
  unfold align_back, align_with, transform_real, Cartesian.N_real. simpl.
  set (n := (length ps - nv)%nat).
  assert (Hn : (n <= length ps)%nat) by (subst n; lia).
  assert (Hlen : length (map (transform_particle 0 theta2 theta1) (firstn n ps)
                         ++ skipn n ps) = length ps).
  { rewrite length_app, length_map, length_firstn, length_skipn. lia. }
  rewrite Hlen. fold n.
  assert (Hl : length (map (transform_particle 0 theta2 theta1) (firstn n ps)) = n).
  { rewrite length_map, length_firstn. lia. }
  rewrite firstn_app, skipn_app, Hl, Nat.sub_diag. simpl.
  rewrite firstn_all2 by lia. rewrite skipn_all2 by lia.
  rewrite !app_nil_r. simpl. rewrite map_map.
  f_equal.
  rewrite <- (firstn_skipn n ps) at 3. f_equal.
  rewrite <- (map_id (firstn n ps)) at 2.
  apply map_ext. intro p. apply transform_particle_round_trip.
Qed.

(** C3: transforming a position or velocity vector with the arguments
    [(0, theta2, theta1)] of [align_simulation] and then with the arguments
    [(-theta1, -theta2, 0)] of [replace_trio] gives the vector back, for every
    vector and every pair of angles, and so does the pair of loops on every
    particle of a simulation.  Over the reals the vectors are equal, hence
    within the relative tolerance 1e-9 in every coordinate. *)
Theorem npEulerAnglesTransform_round_trip (theta1 theta2 : R) :
  (forall v : vec3,
      npEulerAnglesTransform (npEulerAnglesTransform v 0 theta2 theta1)
                             (- theta1) (- theta2) 0 = v)
  /\ (forall v : vec3,
        close_to (1 / 10 ^ 9)
          (npEulerAnglesTransform (npEulerAnglesTransform v 0 theta2 theta1)
                                  (- theta1) (- theta2) 0) v)
  /\ (forall sim : Simulation,
        align_back theta1 theta2 (align_with theta1 theta2 sim) = sim).
Proof.
  split; [|split].
  - intro v. apply euler_there_and_back.
  - intro v. rewrite euler_there_and_back. destruct v as [[x y] z].
    unfold close_to, within. rewrite !Rminus_diag, Rabs_R0.
    assert (0 < 1 / 10 ^ 9) by (apply Rdiv_lt_0_compat; [lra | apply pow_lt; lra]).
    pose proof (Rabs_pos x). pose proof (Rabs_pos y). pose proof (Rabs_pos z).
    repeat split; nra.
  - intro sim. apply align_back_align_with.
Qed.

(** ** Mergers *)

Lemma py_pow_cube_root (x : R) :
  0 <= x -> 0 <= py_pow x (1 / 3) /\ py_pow x (1 / 3) ^ 3 = x.
Proof.
  intro Hx. unfold py_pow. destruct (Req_dec_T x 0) as [E|E].
  - subst x. split; [lra | ring].
  - assert (Hpos : 0 < x) by lra.
    split.
    + left. unfold Rpower. apply exp_pos.
    + rewrite <- Rpower_pow by (unfold Rpower; apply exp_pos).
      rewrite Rpower_mult.
      replace (1 / 3 * INR 3) with 1 by (simpl; field).
      now apply Rpower_1.
Qed.

Lemma cube_lt (x y : R) : 0 <= x -> 0 <= y -> x ^ 3 < y ^ 3 -> x < y.
Proof.
  intros Hx Hy H. destruct (Rlt_dec x y) as [|Hn]; auto.
  exfalso. assert (y <= x) by lra.
  assert (y * y <= x * x) by nra.
  assert (y ^ 3 <= x ^ 3) by (simpl; nra). lra.
Qed.

(** C2: [perfect_merge] on particles [i] and [j] leaves in slot [i] one
    particle whose mass is the sum of the two masses, whose position and
    velocity are the mass-weighted means (so that its momentum is the sum of
    the two momenta) and whose radius is the cube root of the summed cubes; it
    stops the simulation, returns 2 and touches no other slot.  With masses 1
    and 3 and radii 1 and 2 the mass is 4 and the radius 2.0801 to four
    decimals. *)
Theorem perfect_merge_conserves (sim : Simulation) (i j : nat) (pi pj : Particle) :
  getitem (Cartesian.particles sim) i = Ok pi ->
  getitem (Cartesian.particles sim) j = Ok pj ->
  0 <= Cartesian.r pi -> 0 <= Cartesian.r pj ->
  Cartesian.m pi + Cartesian.m pj <> 0 ->
  exists sim' b,
    perfect_merge i j sim = (Ok 2%nat, sim')
    /\ getitem (Cartesian.particles sim') i = Ok b
    /\ Cartesian.m b = Cartesian.m pi + Cartesian.m pj
    /\ xyz b = vdiv (vadd (vscale (Cartesian.m pi) (xyz pi)) (vscale (Cartesian.m pj) (xyz pj)))
                    (Cartesian.m pi + Cartesian.m pj)
    /\ vxyz b = vdiv (vadd (vscale (Cartesian.m pi) (vxyz pi)) (vscale (Cartesian.m pj) (vxyz pj)))
                     (Cartesian.m pi + Cartesian.m pj)
    /\ momentum b = vadd (momentum pi) (momentum pj)
    /\ 0 <= Cartesian.r b
    /\ Cartesian.r b ^ 3 = Cartesian.r pi ^ 3 + Cartesian.r pj ^ 3
    /\ stopped sim' = true
    /\ (forall k, k <> i ->
          nth_error (Cartesian.particles sim') k = nth_error (Cartesian.particles sim) k)
    /\ (Cartesian.m pi = 1 -> Cartesian.m pj = 3 ->
        Cartesian.r pi = 1 -> Cartesian.r pj = 2 ->
        Cartesian.m b = 4 /\ 208005 / 100000 < Cartesian.r b < 208015 / 100000).
Proof.
  intros Hi Hj Hri Hrj Hm.
  destruct sim as [ps nv st]. simpl in *.
  pose proof Hi as Hi'. apply getitem_Ok in Hi'.
  set (total := Cartesian.m pi + Cartesian.m pj) in *.
  set (merged := particle_div (particle_add (particle_mul pi (Cartesian.m pi))
                                            (particle_mul pj (Cartesian.m pj))) total).
  set (radius := py_pow (Cartesian.r pi ^ 3 + Cartesian.r pj ^ 3) (1 / 3)).
  destruct (setitem_spec ps i merged pi Hi') as (ps1 & E1 & G1 & O1 & _).
  destruct (setitem_spec ps1 i (set_m merged total) merged G1) as (ps2 & E2 & G2 & O2 & _).
  destruct (setitem_spec ps2 i (set_r (set_m merged total) radius) _ G2)
    as (ps3 & E3 & G3 & O3 & _).
  assert (Hcube : 0 <= radius /\ radius ^ 3 = Cartesian.r pi ^ 3 + Cartesian.r pj ^ 3).
  { apply py_pow_cube_root.
    assert (0 <= Cartesian.r pi ^ 3) by (simpl; nra).
    assert (0 <= Cartesian.r pj ^ 3) by (simpl; nra). lra. }
  exists (mkSimulation ps3 nv true), (set_r (set_m merged total) radius).
  split.
  { unfold perfect_merge, particle_at, update_at, stop, mbind, get, put, lift, ret.
    cbn -[pow]. rewrite Hi, Hj. fold total. fold merged. fold radius.
    rewrite E1. cbn -[pow].
    apply getitem_Ok in G1. rewrite G1. rewrite E2. cbn -[pow].
    apply getitem_Ok in G2. rewrite G2. rewrite E3. reflexivity. }
  split. { simpl. now apply getitem_Ok. }
  split. { reflexivity. }
  assert (Hx : xyz (set_r (set_m merged total) radius)
               = vdiv (vadd (vscale (Cartesian.m pi) (xyz pi))
                            (vscale (Cartesian.m pj) (xyz pj))) total) by reflexivity.
  assert (Hv : vxyz (set_r (set_m merged total) radius)
               = vdiv (vadd (vscale (Cartesian.m pi) (vxyz pi))
                            (vscale (Cartesian.m pj) (vxyz pj))) total) by reflexivity.
  split. { exact Hx. }
  split. { exact Hv. }
  split.
  { unfold momentum. rewrite Hv. simpl.
    destruct (vxyz pi) as [[a1 b1] c1]. destruct (vxyz pj) as [[a2 b2] c2].
    simpl. f_equal; [f_equal|]; field; exact Hm. }
  split. { simpl. tauto. }
  split. { simpl in *. tauto. }
  split. { reflexivity. }
  split. { intros k Hk. simpl. rewrite O3, O2, O1 by exact Hk. reflexivity. }
  intros M1 M3 R1 R2. simpl. split.
  - subst total. lra.
  - destruct Hcube as [Hpos Hc]. rewrite R1, R2 in Hc.
    split; apply cube_lt; try lra; rewrite Hc; lra.
Qed.

Lemma perfect_merge_conserves_witness :
  exists sim' b,
    perfect_merge 0 1 merge_example = (Ok 2%nat, sim')
    /\ getitem (Cartesian.particles sim') 0 = Ok b
    /\ Cartesian.m b = 4
    /\ momentum b = (0, -4, 12)
    /\ 208005 / 100000 < Cartesian.r b < 208015 / 100000.
Proof.
  destruct (perfect_merge_conserves merge_example 0 1
              (mkParticle 1 (1, 0, 0) (0, 2, 0) 1) (mkParticle 3 (5, 0, 0) (0, -2, 4) 2))
    as (sim' & b & Hrun & Hget & Hm & _ & _ & Hmom & _ & _ & _ & _ & Hsc);
    try reflexivity; simpl; try lra.
  exists sim', b. repeat split; try assumption.
  - rewrite Hm. simpl. lra.
  - rewrite Hmom. unfold momentum. simpl. f_equal; [f_equal|]; lra.
  - apply Hsc; reflexivity.
  - apply Hsc; reflexivity.
Defined.

(** ** More on the rotation *)

Ltac trig_facts :=
  repeat match goal with
         | |- context [sin ?t] =>
             let s := fresh "s" in let c := fresh "c" in let H := fresh "H" in
             pose proof (sin2_cos2 t) as H; unfold Rsqr in H;
             set (s := sin t) in *; set (c := cos t) in *;
             clearbody s c
         end.

(** X1: the transform with the three angles negated and passed in the reverse
    order undoes the transform, for every vector and every three angles. *)
Theorem npEulerAnglesTransform_inverse (v : vec3) (Omega I omega : R) :
  npEulerAnglesTransform (npEulerAnglesTransform v Omega I omega)
                         (- omega) (- I) (- Omega) = v.
Proof.
  destruct v as [[x y] z]. unfold npEulerAnglesTransform.
  rewrite !sin_neg, !cos_neg. trig_facts.
  f_equal; [f_equal|]; nsatz.
Qed.

(** X2: the transform keeps the scalar product of any two vectors, hence
    every length and every angle between vectors. *)
Theorem npEulerAnglesTransform_isometry (u v : vec3) (Omega I omega : R) :
  dot (npEulerAnglesTransform u Omega I omega) (npEulerAnglesTransform v Omega I omega)
  = dot u v.
Proof.
  destruct u as [[x y] z]. destruct v as [[x' y'] z'].
  unfold npEulerAnglesTransform, dot. trig_facts. nsatz.
Qed.

(** ** The angles of the alignment *)

Lemma sqrt_one_plus_ratio (x y : R) :
  x <> 0 -> sqrt (1 + (y / x)²) = sqrt (x * x + y * y) / Rabs x.
Proof.
  intro Hx.
  replace (1 + (y / x)²) with ((x * x + y * y) / (x * x)) by (unfold Rsqr; field; exact Hx).
  assert (0 < x * x) by nra.
  rewrite sqrt_div_alt by assumption.
  f_equal. apply sqrt_Rsqr_abs.
Qed.

(** [np.arctan2(y, x)] is the angle of the point [(x, y)]. *)
Lemma np_arctan2_cos_sin (y x : R) :
  0 < x * x + y * y ->
  cos (np_arctan2 y x) = x / sqrt (x * x + y * y)
  /\ sin (np_arctan2 y x) = y / sqrt (x * x + y * y).
Proof.
  intro Hpos. set (rho := sqrt (x * x + y * y)).
  assert (Hrho : 0 < rho) by (apply sqrt_lt_R0; exact Hpos).
  unfold np_arctan2.
  destruct (Rlt_dec 0 x) as [Hx|Hx].
  - rewrite cos_atan, sin_atan, sqrt_one_plus_ratio by lra. fold rho.
    rewrite Rabs_pos_eq by lra. split; field; lra.
  - destruct (Rlt_dec x 0) as [Hx'|Hx'].
    + assert (Hc : cos (atan (y / x)) = - x / rho /\ sin (atan (y / x)) = - y / rho).
      { rewrite cos_atan, sin_atan, sqrt_one_plus_ratio by lra. fold rho.
        rewrite Rabs_left by lra. split; field; lra. }
      destruct Hc as [Hc Hs].
      destruct (Rle_dec 0 y).
      * rewrite neg_cos, neg_sin, Hc, Hs. split; field; lra.
      * unfold Rminus. rewrite cos_plus, sin_plus, cos_neg, sin_neg, cos_PI, sin_PI, Hc, Hs.
        split; field; lra.
    + assert (x = 0) by lra. subst x.
      assert (Hy : rho = Rabs y).
      { subst rho. replace (0 * 0 + y * y) with (y²) by (unfold Rsqr; ring).
        apply sqrt_Rsqr_abs. }
      destruct (Rlt_dec 0 y) as [Hy0|Hy0].
      * rewrite cos_PI2, sin_PI2, Hy, Rabs_pos_eq by lra. split; field; lra.
      * destruct (Rlt_dec y 0) as [Hy1|Hy1].
        -- rewrite cos_neg, sin_neg, cos_PI2, sin_PI2, Hy, Rabs_left by lra.
           split; field; lra.
        -- assert (y = 0) by lra. subst y. lra.
Qed.

(** X3: for every vector that is not zero, the two angles that
    [_compute_transformation_angles] derives from it, passed to the transform
    as [align_simulation] does, turn that vector onto the positive z axis
    with its length kept. *)
Theorem transformation_angles_align (Gtot_vec : vec3) :
  0 < dot Gtot_vec Gtot_vec ->
  let '(theta1, theta2) := transformation_angles Gtot_vec in
  npEulerAnglesTransform Gtot_vec 0 theta2 theta1 = (0, 0, sqrt (dot Gtot_vec Gtot_vec)).
Proof.
  destruct Gtot_vec as [[gx gy] gz]. intro Hpos.
  unfold transformation_angles. cbn [vdiv].
  set (g := sqrt (dot (gx, gy, gz) (gx, gy, gz))) in *.
  assert (Hg : 0 < g) by (apply sqrt_lt_R0; exact Hpos).
  assert (Hgg : g * g = gx * gx + gy * gy + gz * gz).
  { subst g. rewrite sqrt_sqrt by lra. reflexivity. }
  set (hx := gx / g). set (hy := gy / g). set (hz := gz / g).
  assert (Hunit : hx * hx + hy * hy + hz * hz = 1).
  { subst hx hy hz. field_simplify_eq; [|lra]. lra. }
  set (perp := sqrt (1 - hz ^ 2)).
  assert (Hperp0 : 0 <= perp) by apply sqrt_pos.
  assert (Hperp2 : perp * perp = hx * hx + hy * hy).
  { subst perp. rewrite sqrt_sqrt by nra. lra. }
  assert (Hgx : gx = g * hx) by (subst hx; field; lra).
  assert (Hgy : gy = g * hy) by (subst hy; field; lra).
  assert (Hgz : gz = g * hz) by (subst hz; field; lra).
  (* second angle: the point (perp, hz) is on the unit circle *)
  destruct (np_arctan2_cos_sin hz perp) as [Hc2 Hs2]; [nra|].
  replace (sqrt (perp * perp + hz * hz)) with 1 in Hc2, Hs2
    by (replace (perp * perp + hz * hz) with 1 by nra; now rewrite sqrt_1).
  unfold npEulerAnglesTransform.
  rewrite sin_0, cos_0.
  rewrite !sin_shift, !cos_shift, Hc2, Hs2.
  (* first angle *)
  assert (H1 : sin (np_arctan2 hy hx) * gx - cos (np_arctan2 hy hx) * gy = 0
               /\ cos (np_arctan2 hy hx) * gx + sin (np_arctan2 hy hx) * gy = g * perp).
  { destruct (Req_dec_T perp 0) as [Hz|Hnz].
    - assert (hx = 0) by nra. assert (hy = 0) by nra.
      rewrite Hgx, Hgy, Hz. split; nra.
    - assert (0 < hx * hx + hy * hy) by nra.
      destruct (np_arctan2_cos_sin hy hx) as [Hc1 Hs1]; [assumption|].
      replace (sqrt (hx * hx + hy * hy)) with perp in Hc1, Hs1
        by (subst perp; f_equal; nra).
      rewrite Hc1, Hs1, Hgx, Hgy. split; field_simplify_eq; try assumption; nra. }
  destruct H1 as [Hx1 Hy1].
  f_equal; [f_equal|].
  - rewrite Hx1. ring.
  - rewrite Hx1, Hy1, Hgz. field_simplify_eq. ring.
  - rewrite Hy1, Hgz. field_simplify_eq. nra.
Qed.

Lemma npEulerAnglesTransform_vadd (u v : vec3) (Omega I omega : R) :
  npEulerAnglesTransform (vadd u v) Omega I omega
  = vadd (npEulerAnglesTransform u Omega I omega) (npEulerAnglesTransform v Omega I omega).
Proof.
  destruct u as [[x y] z]. destruct v as [[x' y'] z'].
  unfold npEulerAnglesTransform, vadd. f_equal; [f_equal|]; ring.
Qed.

Lemma npEulerAnglesTransform_vscale (c : R) (v : vec3) (Omega I omega : R) :
  npEulerAnglesTransform (vscale c v) Omega I omega
  = vscale c (npEulerAnglesTransform v Omega I omega).
Proof.
  destruct v as [[x y] z].
  unfold npEulerAnglesTransform, vscale. f_equal; [f_equal|]; ring.
Qed.

Lemma npEulerAnglesTransform_origin (Omega I omega : R) :
  npEulerAnglesTransform (0, 0, 0) Omega I omega = (0, 0, 0).
Proof.
  unfold npEulerAnglesTransform. f_equal; [f_equal|]; ring.
Qed.

(** The transform is a proper rotation: it commutes with the cross product. *)
Lemma npEulerAnglesTransform_cross (u v : vec3) (Omega I omega : R) :
  cross (npEulerAnglesTransform u Omega I omega) (npEulerAnglesTransform v Omega I omega)
  = npEulerAnglesTransform (cross u v) Omega I omega.
Proof.
  destruct u as [[x y] z]. destruct v as [[x' y'] z'].
  unfold npEulerAnglesTransform, cross. trig_facts.
  f_equal; [f_equal|]; nsatz.
Qed.

Lemma transform_real_N_real (Omega I omega : R) (sim : Simulation) :
  N_real (transform_real Omega I omega sim) = N_real sim
  /\ firstn (N_real sim) (particles (transform_real Omega I omega sim))
     = map (transform_particle Omega I omega) (firstn (N_real sim) (particles sim)).
Proof.
  destruct sim as [ps nv st]. unfold transform_real, N_real. cbn [particles N_var].
  set (n := (length ps - nv)%nat).
  assert (Hn : (n <= length ps)%nat) by (subst n; lia).
  assert (Hl : length (map (transform_particle Omega I omega) (firstn n ps)) = n).
  { rewrite length_map, length_firstn. lia. }
  split.
  - rewrite length_app, Hl, length_skipn. fold n. lia.
  - rewrite firstn_app, Hl, Nat.sub_diag. cbn [firstn].
    rewrite firstn_all2 by lia. apply app_nil_r.
Qed.

(** REBOUND's sum of [m r x v] turns with the frame. *)
Lemma total_angular_momentum_turns (Omega I omega : R) (sim : Simulation) :
  total_angular_momentum (transform_real Omega I omega sim)
  = npEulerAnglesTransform (total_angular_momentum sim) Omega I omega.
Proof.
  unfold total_angular_momentum.
  destruct (transform_real_N_real Omega I omega sim) as [HN Hfirst].
  rewrite HN, Hfirst. clear HN Hfirst.
  generalize (firstn (N_real sim) (particles sim)) as real. intro real.
  induction real as [|p tl IH]; cbn [map fold_right].
  - now rewrite npEulerAnglesTransform_origin.
  - rewrite IH, npEulerAnglesTransform_vadd, npEulerAnglesTransform_vscale.
    unfold transform_particle. cbn [m xyz vxyz].
    now rewrite npEulerAnglesTransform_cross.
Qed.

Section AlignmentFacts.

Variable angular_momentum : Simulation -> vec3.

(** The angular momentum is a vector of the frame: it turns with it. *)
Hypothesis angular_momentum_turns :
  forall Omega I omega sim,
    angular_momentum (transform_real Omega I omega sim)
    = npEulerAnglesTransform (angular_momentum sim) Omega I omega.

(** X4: on a simulation whose angular momentum is not zero,
    [align_simulation] returns the two angles computed from it and leaves the
    simulation with its angular momentum on the positive z axis, of the same
    length; masses and radii are as before, and the rotation back of
    [replace_trio] with the returned angles restores the simulation. *)
Theorem align_simulation_spec (sim : Simulation) :
  0 < dot (angular_momentum sim) (angular_momentum sim) ->
  exists theta1 theta2 sim',
    align_simulation angular_momentum sim = (Ok (theta1, theta2), sim')
    /\ (theta1, theta2) = transformation_angles (angular_momentum sim)
    /\ angular_momentum sim'
       = (0, 0, sqrt (dot (angular_momentum sim) (angular_momentum sim)))
    /\ map m (particles sim') = map m (particles sim)
    /\ map r (particles sim') = map r (particles sim)
    /\ align_back theta1 theta2 sim' = sim.
Proof.
  intro Hpos.
  pose proof (transformation_angles_align (angular_momentum sim) Hpos) as Halign.
  unfold align_simulation, _compute_transformation_angles, mbind, get, put, ret.
  destruct (transformation_angles (angular_momentum sim)) as [theta1 theta2] eqn:E.
  exists theta1, theta2, (align_with theta1 theta2 sim).
  split; [reflexivity|]. split; [reflexivity|]. split; [|split; [|split]].
  - unfold align_with. rewrite angular_momentum_turns. exact Halign.
  - unfold align_with, transform_real. cbn [particles].
    rewrite map_app, map_map. cbn [transform_particle m].
    rewrite <- map_app, firstn_skipn. reflexivity.
  - unfold align_with, transform_real. cbn [particles].
    rewrite map_app, map_map. cbn [transform_particle r].
    rewrite <- map_app, firstn_skipn. reflexivity.
  - apply align_back_align_with.
Qed.

End AlignmentFacts.

(** ** More on mergers *)

Lemma perfect_merge_run (sim : Simulation) (i j : nat) (pi pj : Particle) :
  getitem (particles sim) i = Ok pi ->
  getitem (particles sim) j = Ok pj ->
  exists ps',
    perfect_merge i j sim = (Ok 2%nat, mkSimulation ps' (N_var sim) true)
    /\ nth_error ps' i = Some (merged_body pi pj)
    /\ (forall k, k <> i -> nth_error ps' k = nth_error (particles sim) k)
    /\ length ps' = length (particles sim).
Proof.
  intros Hi Hj. destruct sim as [ps nv st]. cbn [particles N_var] in *.
  pose proof Hi as Hi'. apply getitem_Ok in Hi'.
  set (total := m pi + m pj).
  set (merged := particle_div (particle_add (particle_mul pi (m pi))
                                            (particle_mul pj (m pj))) total).
  set (radius := py_pow (r pi ^ 3 + r pj ^ 3) (1 / 3)).
  destruct (setitem_spec ps i merged pi Hi') as (ps1 & E1 & G1 & O1 & L1).
  destruct (setitem_spec ps1 i (set_m merged total) merged G1) as (ps2 & E2 & G2 & O2 & L2).
  destruct (setitem_spec ps2 i (set_r (set_m merged total) radius) _ G2)
    as (ps3 & E3 & G3 & O3 & L3).
  exists ps3. split; [|split; [|split]].
  - unfold perfect_merge, particle_at, update_at, stop, mbind, get, put, lift, ret.
    cbn -[pow]. rewrite Hi, Hj. fold total. fold merged. fold radius.
    rewrite E1. cbn -[pow].
    apply getitem_Ok in G1. rewrite G1. rewrite E2. cbn -[pow].
    apply getitem_Ok in G2. rewrite G2. rewrite E3. reflexivity.
  - rewrite G3. reflexivity.
  - intros k Hk. rewrite O3, O2, O1 by exact Hk. reflexivity.
  - lia.
Qed.

(** X5: which of the two colliding particles REBOUND names first does not
    matter for the merged body: for two particles of radii that are not
    negative and of total mass other than zero, [perfect_merge i j] leaves in
    slot [i] the very particle that [perfect_merge j i] leaves in slot [j]. *)
Theorem perfect_merge_symmetric (sim : Simulation) (i j : nat) (pi pj : Particle) :
  getitem (particles sim) i = Ok pi ->
  getitem (particles sim) j = Ok pj ->
  0 <= r pi -> 0 <= r pj -> m pi + m pj <> 0 ->
  exists sim_ij sim_ji b,
    perfect_merge i j sim = (Ok 2%nat, sim_ij)
    /\ perfect_merge j i sim = (Ok 2%nat, sim_ji)
    /\ getitem (particles sim_ij) i = Ok b
    /\ getitem (particles sim_ji) j = Ok b.
Proof.
  intros Hi Hj _ _ _.
  destruct (perfect_merge_run sim i j pi pj Hi Hj) as (ps1 & R1 & G1 & _).
  destruct (perfect_merge_run sim j i pj pi Hj Hi) as (ps2 & R2 & G2 & _).
  do 2 eexists. exists (merged_body pi pj).
  split; [exact R1|]. split; [exact R2|]. cbn [particles].
  split; [now apply getitem_Ok|]. apply getitem_Ok. rewrite G2. f_equal.
  unfold merged_body.
  destruct (xyz pi) as [[x1 y1] z1]. destruct (xyz pj) as [[x2 y2] z2].
  destruct (vxyz pi) as [[u1 v1] w1]. destruct (vxyz pj) as [[u2 v2] w2].
  cbn [vscale vadd vdiv].
  rewrite (Rplus_comm (m pj) (m pi)), (Rplus_comm (r pj ^ 3) (r pi ^ 3)).
  f_equal; (f_equal; [f_equal|]); f_equal; ring.
Qed.

(** X6: a merger of two bodies of positive mass (and of radii that are not
    negative) never gains kinetic energy: the merged body has at most the
    kinetic energy of the two together. *)
Theorem perfect_merge_kinetic_energy (sim : Simulation) (i j : nat) (pi pj : Particle) :
  getitem (particles sim) i = Ok pi ->
  getitem (particles sim) j = Ok pj ->
  0 <= r pi -> 0 <= r pj ->
  0 < m pi -> 0 < m pj ->
  exists sim' b,
    perfect_merge i j sim = (Ok 2%nat, sim')
    /\ getitem (particles sim') i = Ok b
    /\ kinetic_energy b <= kinetic_energy pi + kinetic_energy pj.
Proof.
  intros Hi Hj _ _ Hmi Hmj.
  destruct (perfect_merge_run sim i j pi pj Hi Hj) as (ps' & Hrun & Hget & _).
  eexists. exists (merged_body pi pj).
  split; [exact Hrun|]. split; [now apply getitem_Ok|].
  unfold kinetic_energy, merged_body. cbn [m vxyz].
  destruct (vxyz pi) as [[u1 v1] w1]. destruct (vxyz pj) as [[u2 v2] w2].
  cbn [vscale vadd vdiv dot].
  set (mi := m pi) in *. set (mj := m pj) in *. clearbody mi mj.
  assert (Hcomp : forall p q : R,
            (mi + mj) * ((p * mi + q * mj) / (mi + mj) * ((p * mi + q * mj) / (mi + mj)))
            <= mi * (p * p) + mj * (q * q)).
  { intros p q.
    replace ((mi + mj) * ((p * mi + q * mj) / (mi + mj) * ((p * mi + q * mj) / (mi + mj))))
      with ((p * mi + q * mj) * (p * mi + q * mj) / (mi + mj)) by (field; lra).
    apply Rmult_le_reg_r with (mi + mj); [lra|].
    replace ((p * mi + q * mj) * (p * mi + q * mj) / (mi + mj) * (mi + mj))
      with ((p * mi + q * mj) * (p * mi + q * mj)) by (field; lra).
    assert (0 <= mi * mj * ((p - q) * (p - q))).
    { apply Rmult_le_pos; [apply Rmult_le_pos; lra | apply (Rle_0_sqr (p - q))]. }
    assert ((mi * (p * p) + mj * (q * q)) * (mi + mj)
            - (p * mi + q * mj) * (p * mi + q * mj)
            = mi * mj * ((p - q) * (p - q))) by ring.
    lra. }
  pose proof (Hcomp u1 u2). pose proof (Hcomp v1 v2). pose proof (Hcomp w1 w2).
  lra.
Qed.

(** ** The extra facts on [merge_example] *)

Lemma merge_example_angular_momentum :
  total_angular_momentum merge_example = (0, -60, -28).
Proof.
  unfold total_angular_momentum, merge_example, N_real.
  cbn [particles N_var length Nat.sub firstn fold_right m xyz vxyz cross vscale vadd].
  f_equal; [f_equal|]; ring.
Qed.

Lemma transformation_angles_align_witness :
  let '(theta1, theta2) := transformation_angles (1, 2, 2) in
  npEulerAnglesTransform (1, 2, 2) 0 theta2 theta1 = (0, 0, sqrt (dot (1, 2, 2) (1, 2, 2))).
Proof.
  apply (transformation_angles_align (1, 2, 2)). unfold dot. lra.
Defined.

Lemma align_simulation_spec_witness :
  exists theta1 theta2 sim',
    align_simulation total_angular_momentum merge_example = (Ok (theta1, theta2), sim')
    /\ total_angular_momentum sim'
       = (0, 0, sqrt (dot (total_angular_momentum merge_example)
                          (total_angular_momentum merge_example)))
    /\ align_back theta1 theta2 sim' = merge_example.
Proof.
  destruct (align_simulation_spec total_angular_momentum total_angular_momentum_turns
              merge_example)
    as (theta1 & theta2 & sim' & Hrun & _ & Hz & _ & _ & Hback).
  - rewrite merge_example_angular_momentum. unfold dot. lra.
  - exists theta1, theta2, sim'. split; [exact Hrun|]. split; [exact Hz | exact Hback].
Defined.

Lemma perfect_merge_symmetric_witness :
  exists sim_ij sim_ji b,
    perfect_merge 0 1 merge_example = (Ok 2%nat, sim_ij)
    /\ perfect_merge 1 0 merge_example = (Ok 2%nat, sim_ji)
    /\ getitem (particles sim_ij) 0 = Ok b
    /\ getitem (particles sim_ji) 1 = Ok b.
Proof.
  apply (perfect_merge_symmetric merge_example 0 1
           (mkParticle 1 (1, 0, 0) (0, 2, 0) 1) (mkParticle 3 (5, 0, 0) (0, -2, 4) 2));
    try reflexivity; simpl; lra.
Defined.

Lemma perfect_merge_kinetic_energy_witness :
  exists sim' b,
    perfect_merge 0 1 merge_example = (Ok 2%nat, sim')
    /\ getitem (particles sim') 0 = Ok b
    /\ kinetic_energy b
       <= kinetic_energy (mkParticle 1 (1, 0, 0) (0, 2, 0) 1)
          + kinetic_energy (mkParticle 3 (5, 0, 0) (0, -2, 4) 2).
Proof.
  apply (perfect_merge_kinetic_energy merge_example 0 1
           (mkParticle 1 (1, 0, 0) (0, 2, 0) 1) (mkParticle 3 (5, 0, 0) (0, -2, 4) 2));
    try reflexivity; simpl; lra.
Defined.

End CartesianFacts.

(** ** The scenarios *)



Lemma argsort_pair_le (x y : R) : x <= y -> argsort [x; y] = [0; 1]%nat.
Proof.
  intro H. unfold argsort, enumerate.
  cbn [fold_right insert_key combine seq length map fst snd].
  destruct (Rle_dec x y); [reflexivity | contradiction].
Qed.

Lemma argsort_pair_gt (x y : R) : y < x -> argsort [x; y] = [1; 0]%nat.
Proof.
  intro H. unfold argsort, enumerate.
  cbn [fold_right insert_key combine seq length map fst snd].
  destruct (Rle_dec x y); [lra | reflexivity].
Qed.

(** [replace_trio] on [three_planets] and two survivors, up to the sort. *)
Lemma two_survivors_spliced (m1 a1 m2 a2 : R) :
  replace_trio circular_l circular_l planar_reorient three_planets (1, 2, 3)%nat 0 0
    (survivors m1 a1 m2 a2)
  = (reorder circular_l circular_l (particles (two_left m1 (1 * a1) m2 (1 * a2)))
       (enumerate 0 (argsort [1 * a1; 1 * a2])) (two_left m1 (1 * a1) m2 (1 * a2)),
     survivors m1 (1 * a1) m2 (1 * a2)).
Proof.
  rewrite replace_trio_stages.
  change (element_at a three_planets 1) with (Ok (A := R) 1).
  cbv beta iota zeta.
  change (rescale_all 1 (particles (survivors m1 a1 m2 a2)))
    with [star; planet m1 (1 * a1); planet m2 (1 * a2)].
  f_equal.
Qed.

Lemma two_survivors_in_order (m1 a1 m2 a2 : R) :
  1 * a1 <= 1 * a2 ->
  fst (replace_trio circular_l circular_l planar_reorient three_planets (1, 2, 3)%nat 0 0
         (survivors m1 a1 m2 a2))
  = Ok (two_left m1 (1 * a1) m2 (1 * a2)).
Proof.
  intro H. rewrite two_survivors_spliced. cbn [fst].
  rewrite argsort_pair_le by exact H. reflexivity.
Qed.

(** Reading the claim of C5 on [three_planets] and two survivors at the same
    distance: the two slots come back with equal semi-major axes, not in
    strictly ascending order. *)
Lemma strict_ascending_counterexample :
  fst (replace_trio circular_l circular_l planar_reorient three_planets (1, 2, 3)%nat 0 0
         tied_pair)
  = Ok (two_left (2 / 100000) (1 * (3 / 2)) (1 / 100000) (1 * (3 / 2)))
  /\ ~ (forall i j bi bj,
          (1 <= i)%nat -> (i < j)%nat ->
          nth_error (particles (two_left (2 / 100000) (1 * (3 / 2))
                                         (1 / 100000) (1 * (3 / 2)))) i = Some bi ->
          nth_error (particles (two_left (2 / 100000) (1 * (3 / 2))
                                         (1 / 100000) (1 * (3 / 2)))) j = Some bj ->
          a bi < a bj).
Proof.
  split.
  - apply two_survivors_in_order. lra.
  - intro H.
    specialize (H 1%nat 2%nat _ _ (le_n 1) (le_n 2) eq_refl eq_refl).
    simpl in H. lra.
Qed.

Lemma replace_trio_ascending_witness :
  replace_trio circular_l circular_l planar_reorient three_planets (1, 2, 3)%nat 0 0
    swapped_pair
  = (Ok (two_left (1 / 100000) (1 * (6 / 5)) (2 / 100000) (1 * (5 / 2))),
     survivors (2 / 100000) (1 * (5 / 2)) (1 / 100000) (1 * (6 / 5)))
  /\ forall i j bi bj,
       (1 <= i)%nat -> (i < j)%nat ->
       nth_error (particles (two_left (1 / 100000) (1 * (6 / 5))
                                      (2 / 100000) (1 * (5 / 2)))) i = Some bi ->
       nth_error (particles (two_left (1 / 100000) (1 * (6 / 5))
                                      (2 / 100000) (1 * (5 / 2)))) j = Some bj ->
       a bi <= a bj.
Proof.
  assert (Hrun : replace_trio circular_l circular_l planar_reorient three_planets
                   (1, 2, 3)%nat 0 0 swapped_pair
                 = (Ok (two_left (1 / 100000) (1 * (6 / 5)) (2 / 100000) (1 * (5 / 2))),
                    survivors (2 / 100000) (1 * (5 / 2)) (1 / 100000) (1 * (6 / 5)))).
  { unfold swapped_pair. rewrite two_survivors_spliced.
    rewrite argsort_pair_gt by lra. reflexivity. }
  split; [exact Hrun|].
  exact (replace_trio_ascending circular_l circular_l planar_reorient three_planets
           (1, 2, 3)%nat 0 0 swapped_pair _ _ Hrun).
Defined.



Lemma check_valid_sim_spec_witness :
  fst (check_valid_sim three_planets) = Ok tt
  /\ snd (check_valid_sim three_planets) = three_planets.
Proof.
  destruct (check_valid_sim_spec three_planets star
              [planet (1 / 100000) 1; planet (1 / 100000) 2; planet (1 / 100000) 3]
              eq_refl)
    as (_ & _ & Hok & Hsame).
  split; [|exact Hsame].
  apply Hok. split; intros b Hb; simpl in Hb;
    repeat (destruct Hb as [<-|Hb]; [simpl; lra|]); contradiction.
Defined.



Lemma copy_sim_G_witness :
  G three_planets = 1
  /\ G reduced_three = 4 * PI ^ 2
  /\ exists sim_copy,
       copy_sim three_planets [1; 2; 3]%nat false = Ok sim_copy /\ G sim_copy = 4 * PI ^ 2.
Proof.
  destruct (copy_sim_G three_planets [1; 2; 3]%nat) as [Hany Hsome].
  split; [reflexivity|]. split.
  - apply (Hany false). reflexivity.
  - apply Hsome. discriminate.
Defined.

Lemma Tperi_circular (sim : Sim) (k : nat) (b : Body) :
  e b = 0 -> Tperi scenario_period sim k b = INR k.
Proof.
  intro He. unfold Tperi, scenario_period. rewrite He, Rminus_0_r, Rplus_0_r, sqrt_1.
  unfold Rpower. rewrite ln_1, Rmult_0_r, exp_0. field.
Qed.

Lemma set_integrator_and_timestep_spec_witness :
  (exists sim',
      set_integrator_and_timestep scenario_period hyperbolic_sim = (Ok tt, sim')
      /\ dt sim' = NaN /\ dt sim' <> Num 0)
  /\ (exists sim',
        set_integrator_and_timestep scenario_period three_planets = (Ok tt, sim')
        /\ dt sim' = Num (5 / 100 * 1)).
Proof.
  split.
  - destruct (set_integrator_and_timestep_spec scenario_period hyperbolic_sim)
      as (sim' & Hrun & _ & _ & Hnan); [discriminate|].
    exists sim'. split; [exact Hrun|]. apply Hnan.
    exists (mkBody (1 / 100000) (- 1) (12 / 10) 0 0 0 0 0).
    split; [left; reflexivity | simpl; lra].
  - destruct (set_integrator_and_timestep_spec scenario_period three_planets)
      as (sim' & Hrun & _ & Hmin & _); [discriminate|].
    exists sim'. split; [exact Hrun|].
    destruct Hmin as (t & Hdt & (j & b & Hb & Ht) & Hle).
    { intros b Hb. simpl in Hb.
      repeat (destruct Hb as [<-|Hb]; [simpl; lra|]). contradiction. }
    rewrite Hdt. do 2 f_equal.
    specialize (Hle 0%nat (planet (1 / 100000) 1) eq_refl).
    rewrite Tperi_circular in Hle by reflexivity.
    assert (He : e b = 0).
    { apply nth_error_In in Hb. simpl in Hb.
      repeat (destruct Hb as [<-|Hb]; [reflexivity|]). contradiction. }
    rewrite Tperi_circular in Ht by exact He.
    assert (1 <= INR (S j)) by (rewrite S_INR; pose proof (pos_INR j); lra).
    simpl in Hle. lra.
Defined.

(** ** The other functions on the scenarios *)

Ltac each_body Hb :=
  simpl in Hb; repeat (destruct Hb as [<-|Hb]; [unfold bound; simpl; try split; lra|]);
  contradiction.


Lemma reduced_three_planetary : planetary reduced_three.
Proof.
  exists star, [fresh_planet 1; fresh_planet 2; fresh_planet 3].
  split; [reflexivity|]. split; [simpl; lra|].
  apply Forall_forall. intros b Hb. each_body Hb.
Qed.


Lemma check_hyperbolic_spec_witness :
  check_hyperbolic hyperbolic_sim = Ok true
  /\ check_hyperbolic three_planets = Ok false
  /\ check_hyperbolic no_survivor = Err ValueError
  /\ check_hyperbolic Simulation = Err IndexError.
Proof.
  split; [|split; [|split]].
  - destruct (check_hyperbolic_spec hyperbolic_sim) as (H & _ & _).
    destruct (H star [mkBody (1 / 100000) (- 1) (12 / 10) 0 0 0 0 0;
                      planet (1 / 100000) 2; planet (1 / 100000) 3] eq_refl)
      as [Htrue _].
    + simpl. lra.
    + intros b Hb. each_body Hb.
    + discriminate.
    + apply Htrue. exists (mkBody (1 / 100000) (- 1) (12 / 10) 0 0 0 0 0).
      split; [left; reflexivity | simpl; lra].
  - destruct (check_hyperbolic_spec three_planets) as (H & _ & _).
    destruct (H star [planet (1 / 100000) 1; planet (1 / 100000) 2; planet (1 / 100000) 3]
                eq_refl) as [_ Hfalse].
    + simpl. lra.
    + intros b Hb. each_body Hb.
    + discriminate.
    + apply Hfalse. intros b Hb. each_body Hb.
  - destruct (check_hyperbolic_spec no_survivor) as (_ & H & _).
    apply H; [discriminate | reflexivity].
  - destruct (check_hyperbolic_spec Simulation) as (_ & _ & H). apply H. reflexivity.
Defined.

Lemma get_rad_spec_witness :
  0 < get_rad (3 / 1000000) /\ get_rad (3 / 1000000) < get_rad (1 / 1000).
Proof.
  destruct get_rad_spec as (_ & Hpos & Hmono & _).
  split; [apply Hpos; lra | apply Hmono; lra].
Defined.

Lemma set_integrator_and_timestep_integrator_witness :
  (exists sim',
     set_integrator_and_timestep scenario_period three_planets = (Ok tt, sim')
     /\ integrator sim' = whfast)
  /\ set_integrator_and_timestep scenario_period no_survivor = (Err ValueError, no_survivor).
Proof.
  split.
  - destruct (set_integrator_and_timestep_integrator scenario_period three_planets) as [H _].
    destruct H as (sim' & Hrun & _ & Hwh & _); [discriminate|].
    exists sim'. split; [exact Hrun|].
    apply Hwh. intros b Hb. simpl in Hb.
    repeat (destruct Hb as [<-|Hb]; [simpl; lra|]). contradiction.
  - destruct (set_integrator_and_timestep_integrator scenario_period no_survivor) as [_ H].
    apply H. reflexivity.
Defined.

Lemma copy_sim_scaled_spec_witness :
  exists rest,
    copy_sim three_planets [2; 3]%nat true
    = Ok (mkSim (4 * PI ^ 2) (Num (1 / 1000)) ias15 0
            (mkBody 1 0 0 0 0 0 0 0
               :: scaled_body 1 2 (planet (1 / 100000) 2) :: rest))
    /\ a (scaled_body 1 2 (planet (1 / 100000) 2)) = 1.
Proof.
  destruct (copy_sim_scaled_spec three_planets [2; 3]%nat star (planet (1 / 100000) 2)
              [planet (1 / 100000) 1; planet (1 / 100000) 2; planet (1 / 100000) 3] 2%nat
              eq_refl)
    as (rest & sim_copy & Hrun & Hshape & _ & Ha & _).
  - simpl. lra.
  - apply Forall_forall. intros b Hb. each_body Hb.
  - reflexivity.
  - lia.
  - reflexivity.
  - exists rest. split; [rewrite Hrun, Hshape; reflexivity | exact Ha].
Defined.

Lemma copy_sim_scaled_errors_witness :
  copy_sim three_planets [] true = Err ValueError
  /\ copy_sim three_planets [0; 2]%nat true = Err ValueError
  /\ copy_sim three_planets [7]%nat true = Err IndexError.
Proof.
  split; [|split].
  - destruct (copy_sim_scaled_errors three_planets []) as (H & _ & _). apply H. reflexivity.
  - destruct (copy_sim_scaled_errors three_planets [0; 2]%nat) as (_ & H & _).
    apply H; [reflexivity | discriminate].
  - destruct (copy_sim_scaled_errors three_planets [7]%nat) as (_ & _ & H).
    apply (H 7%nat); [reflexivity | unfold N; simpl; lia].
Defined.

Lemma revert_sim_units_spec_witness :
  exists out,
    revert_sim_units unit (fun _ _ _ => Ok 39) [mkTimed reduced_three 2] [2] [3] 1
      (mkUnits unit (Some tt) (Some tt) (Some tt)) (Some [5])
    = Ok out
    /\ nth_error out 0 = Some (reverted [2] [3] 39 (Some [5]) 0 (mkTimed reduced_three 2)).
Proof.
  destruct (revert_sim_units_spec unit (fun _ _ _ => Ok 39) [mkTimed reduced_three 2] [2] [3]
              1 39 (mkUnits unit (Some tt) (Some tt) (Some tt)) (Some [5]) eq_refl)
    as (out & Hrun & _ & Hnth).
  - intros tsim [<-|[]]. exact reduced_three_planetary.
  - simpl. lia.
  - simpl. lia.
  - intros l0 H. inversion H. simpl. lia.
  - intros i Hi. simpl in Hi. assert (i = 0%nat) as -> by lia. simpl. lra.
  - exists out. split; [exact Hrun|].
    destruct (Hnth 0%nat (mkTimed reduced_three 2) eq_refl) as [H _]. exact H.
Defined.

Lemma revert_sim_units_errors_witness :
  revert_sim_units unit (fun _ _ _ => Ok 39) [mkTimed reduced_three 2] [] [3] 1
    (mkUnits unit None None None) None
  = Err IndexError.
Proof.
  apply (revert_sim_units_errors unit (fun _ _ _ => Ok 39) [mkTimed reduced_three 2] [] [3]
           1 1 (mkUnits unit None None None) None eq_refl).
  - intros tsim [<-|[]]. exact reduced_three_planetary.
  - constructor.
  - constructor; [lra | constructor].
  - left. simpl. lia.
Defined.

Lemma copy_sim_scaled_reverted_witness :
  exists scaled unscaled,
    copy_sim three_planets [2; 3]%nat true = Ok scaled
    /\ copy_sim three_planets [2; 3]%nat false = Ok unscaled
    /\ revert_sim_units unit (fun _ _ _ => Ok 39) [mkTimed scaled 7] [1] [2] 1
         (mkUnits unit None None None) None
       = Ok [mkTimed (set_G unscaled 1) 0].
Proof.
  apply (copy_sim_scaled_reverted unit (fun _ _ _ => Ok 39) three_planets [2; 3]%nat star
           (planet (1 / 100000) 2)
           [planet (1 / 100000) 1; planet (1 / 100000) 2; planet (1 / 100000) 3] 2%nat 1 7
           eq_refl).
  - simpl. lra.
  - apply Forall_forall. intros b Hb. each_body Hb.
  - reflexivity.
  - lia.
  - reflexivity.
Defined.



Lemma replace_trio_bad_first_index_witness :
  replace_trio circular_l circular_l planar_reorient three_planets (0, 2, 3)%nat 0 0 tied_pair
  = (Err ValueError, tied_pair)
  /\ replace_trio circular_l circular_l planar_reorient three_planets (4, 5, 6)%nat 0 0
       tied_pair
     = (Err IndexError, tied_pair).
Proof.
  split.
  - destruct (replace_trio_bad_first_index circular_l circular_l planar_reorient three_planets
                0 2 3 0 0 tied_pair) as [H _].
    apply H; [discriminate | reflexivity].
  - destruct (replace_trio_bad_first_index circular_l circular_l planar_reorient three_planets
                4 5 6 0 0 tied_pair) as [_ H].
    apply H. unfold N. simpl. lia.
Defined.


Lemma init_sim_parameters_validates_witness :
  init_sim_parameters scenario_period true scenario_distance shadow_particles resting true 0
    (default_setup negative_planet)
  = (Err NegativeMassError, default_setup negative_planet).
Proof.
  destruct (init_sim_parameters_validates scenario_period true scenario_distance
              shadow_particles resting true 0 (default_setup negative_planet)
              star [planet (- (1 / 100000)) 1] eq_refl) as [H _].
  apply H. exists (planet (- (1 / 100000)) 1).
  split; [right; left; reflexivity | simpl; lra].
Defined.

Lemma init_sim_parameters_lone_star_witness :
  init_sim_parameters scenario_period true scenario_distance shadow_particles resting true 0
    (default_setup no_survivor)
  = (Err ValueError, mkSetup no_survivor collision_line 0 0 1).
Proof.
  apply (init_sim_parameters_lone_star scenario_period true scenario_distance
           shadow_particles resting true 0 (default_setup no_survivor) star eq_refl).
  simpl. lra.
Defined.

Lemma init_sim_parameters_spec_witness :
  exists maxd sim',
    init_sim_parameters scenario_period true scenario_distance shadow_particles resting true 0
      (default_setup three_planets)
    = (Ok tt, mkSetup sim' collision_line (100 * maxd) 0 0)
    /\ N_var sim' = 4%nat
    /\ integrator sim' = whfast
    /\ map r (particles sim')
       = 0 :: map (fun p => r (hill_sized 1 p))
                  [planet (1 / 100000) 1; planet (1 / 100000) 2; planet (1 / 100000) 3]
            ++ [0; 1 / 100; 1 / 100; 1 / 100].
Proof.
  destruct (init_sim_parameters_spec scenario_period true scenario_distance
              shadow_particles resting true 0 (default_setup three_planets)
              star (planet (1 / 100000) 1) [planet (1 / 100000) 2; planet (1 / 100000) 3]
              eq_refl)
    as (maxd & sim' & Hrun & _ & Hps & _ & HNvar & _ & _ & Hwh).
  - intros b Hb. simpl in Hb.
    repeat (destruct Hb as [<-|Hb]; [simpl; lra|]). contradiction.
  - simpl. lra.
  - exists maxd, sim'. split; [exact Hrun|]. split; [exact HNvar|]. split.
    + apply Hwh. intros b Hb. simpl in Hb.
      repeat (destruct Hb as [<-|Hb]; [simpl; lra|]). contradiction.
    + rewrite Hps. reflexivity.
Defined.
